(** * benthos: output plugin registry and the configuration assembler

    The first part embeds [lib/output/plugin.go]: the process-wide map
    [pluginSpecs] and the functions that read and write it.  The second part
    models the configuration resolution pipeline that the test file of
    [lib/service/test] exercises. *)

From Stdlib Require Import Ascii.
From stdpp Require Import gmap strings list fin_maps sorting pretty.

(** ** The plugin registry of [lib/output/plugin.go] *)

Module Registry.

(** Go function values.  A function value is either [nil] or a closure; the
    closures themselves are opaque, so their types are left abstract.
    [PluginConstructor] is the type of what callers pass to [RegisterPlugin];
    it is stored inside a func literal and never compared with [nil], so [nil]
    is one of its inhabitants.  [Interop] is the state of the package
    [internal/interop/plugins]. *)
Class FuncTypes : Type := {
  PluginConstructor : Type;
  ConfFn : Type;
  SanitFn : Type;
  OutputFn : Type;
  Interop : Type
}.

Section types.
Context `{FT : FuncTypes}.

(** [PluginConfigConstructor], [PluginConfigSanitiser] and
    [outputConstructor]: [None] is the nil function value. *)
Definition PluginConfigConstructor : Type := option ConfFn.
Definition PluginConfigSanitiser : Type := option SanitFn.
Definition outputConstructor : Type := option OutputFn.

(** [ConstructorFunc] has the same underlying func type as
    [outputConstructor]; the conversion [ConstructorFunc(f)] keeps the
    function value, and so keeps [nil]. *)
Definition ConstructorFuncT : Type := option OutputFn.
Definition ConstructorFunc (f : outputConstructor) : ConstructorFuncT := f.

(** The func literal of [RegisterPlugin] (lines 74-81): a closure over the
    caller's [constructor] that forwards [conf.Plugin] to it. *)
Inductive simpleConstructor : Type :=
  | pluginClosure (constructor : PluginConstructor).

(** [type pluginSpec struct] *)
Record pluginSpec : Type := mkPluginSpec {
  constructor : outputConstructor;
  confConstructor : PluginConfigConstructor;
  confSanitiser : PluginConfigSanitiser;
  description : string
}.

(** The zero value of [pluginSpec]: what [pluginSpecs[name]] yields for an
    absent key. *)
Definition zeroSpec : pluginSpec :=
  {| constructor := None; confConstructor := None;
     confSanitiser := None; description := "" |}.

(** The package-level state: [var pluginSpecs = map[string]pluginSpec{}]
    and the state behind [plugins.Add]. *)
Record world : Type := mkWorld {
  pluginSpecs : gmap string pluginSpec;
  interop : Interop
}.

(** [pluginSpecs[name]] in its one-result form. *)
Definition index (m : gmap string pluginSpec) (name : string) : pluginSpec :=
  default zeroSpec (m !! name).
End types.

(** Functions of the package and of its imports that [plugin.go] calls and
    that live in other files.
    - [fromSimpleConstructor] turns the closure into an [outputConstructor];
    - [plugins_Add] is [plugins.Add(name, ctype)];
    - [exampleYAML specs name confCtor] stands for lines 146-151 of
      [PluginDescriptions]: [NewConfig], [confCtor()], [SanitiseConfig] and
      [config.MarshalYAML]; [None] is [confBytes] left [nil]. *)
Class Externals `{FT : FuncTypes} : Type := {
  fromSimpleConstructor : simpleConstructor → outputConstructor;
  plugins_Add : string → string → Interop → Interop;
  exampleYAML : gmap string pluginSpec → string → ConfFn → option string
}.

Section registry.
Context `{EX : Externals}.

(** [func GetDeprecatedPlugin(name string) (ConstructorFunc, bool)] *)
Definition GetDeprecatedPlugin (name : string) (w : world)
  : ConstructorFuncT * bool :=
  match pluginSpecs w !! name with
  | None => (None, false)
  | Some spec => (ConstructorFunc (constructor spec), true)
  end.

(** [func RegisterPlugin(typeString, configConstructor, constructor)] *)
Definition RegisterPlugin (typeString : string)
    (configConstructor : PluginConfigConstructor)
    (ctor : PluginConstructor) (w : world) : world :=
  let spec := index (pluginSpecs w) typeString in
  let spec := {| constructor := fromSimpleConstructor (pluginClosure ctor);
                 confConstructor := confConstructor spec;
                 confSanitiser := confSanitiser spec;
                 description := description spec |} in
  let spec := {| constructor := constructor spec;
                 confConstructor := configConstructor;
                 confSanitiser := confSanitiser spec;
                 description := description spec |} in
  {| pluginSpecs := <[typeString := spec]> (pluginSpecs w);
     interop := plugins_Add typeString "output" (interop w) |}.

(** [func DocumentPlugin(typeString, description, configSanitiser)] *)
Definition DocumentPlugin (typeString desc : string)
    (configSanitiser : PluginConfigSanitiser) (w : world) : world :=
  let spec := index (pluginSpecs w) typeString in
  let spec := {| constructor := constructor spec;
                 confConstructor := confConstructor spec;
                 confSanitiser := confSanitiser spec;
                 description := desc |} in
  let spec := {| constructor := constructor spec;
                 confConstructor := confConstructor spec;
                 confSanitiser := configSanitiser;
                 description := description spec |} in
  {| pluginSpecs := <[typeString := spec]> (pluginSpecs w);
     interop := interop w |}.

(** [func PluginCount() int] *)
Definition PluginCount (w : world) : nat := size (pluginSpecs w).

(** [\n] *)
Definition nl : string := String (Ascii.ascii_of_nat 10) "".

(** [var pluginHeader] *)
Definition pluginHeader : string :=
  "This document was generated with `benthos --list-output-plugins`."
  +:+ nl +:+ nl
  +:+ "This document lists any output plugins that this flavour of Benthos offers"
  +:+ nl +:+ "beyond the standard set.".

(** [sort.Strings] of the Go standard library: sorts in increasing byte
    order. *)
Definition sort_Strings (names : list string) : list string :=
  merge_sort String.le names.

(** [strings.Repeat] *)
Fixpoint strings_Repeat (s : string) (n : nat) : string :=
  match n with
  | O => ""
  | S n => s +:+ strings_Repeat s n
  end.

(** The writes up to and including ["### Contents\n\n"]. *)
Definition preamble : string :=
  "Output Plugins" +:+ nl +:+ strings_Repeat "=" 14 +:+ nl +:+ nl
  +:+ pluginHeader +:+ nl +:+ nl +:+ "### Contents" +:+ nl +:+ nl.

(** One iteration of the first loop:
    [fmt.Sprintf("%v. [`%v`](#%v)\n", i+1, name, name)]. *)
Definition contentsLine (i : nat) (name : string) : string :=
  pretty (i + 1)%nat +:+ ". [`" +:+ name +:+ "`](#" +:+ name +:+ ")" +:+ nl.

(** One iteration of the second loop, for the plugin at index [i] of
    [len] names. *)
Definition pluginSection (specs : gmap string pluginSpec) (len i : nat)
    (name : string) : string :=
  let confBytes :=
    match confConstructor (index specs name) with
    | Some confCtor => exampleYAML specs name confCtor
    | None => None
    end in
  "## " +:+ ("`" +:+ name +:+ "`") +:+ nl
  +:+ match confBytes with
      | Some b => nl +:+ "``` yaml" +:+ nl +:+ b +:+ "```" +:+ nl
      | None => ""
      end
  +:+ (let desc := description (index specs name) in
       if (0 <? String.length desc)%nat
       then nl +:+ desc +:+ nl else "")
  +:+ (if negb (i =? len - 1)%nat then nl else "").

(** The contents index as a reader of the document sees it, for comparison
    with the first loop: one line per name, numbered from [k] on. *)
Fixpoint numberedLines (k : nat) (names : list string) : string :=
  match names with
  | [] => ""
  | name :: names =>
      pretty k +:+ ". [`" +:+ name +:+ "`](#" +:+ name +:+ ")" +:+ nl
      +:+ numberedLines (S k) names
  end.

(** [buf.WriteString] over a loop [for i, x := range l]. *)
Definition writeAll (f : nat → string → string) (l : list string) : string :=
  foldr String.app "" (imap f l).

(** [func PluginDescriptions() string], given in [order] the sequence in
    which [for name := range pluginSpecs] happens to visit the keys. *)
Definition PluginDescriptions_range (order : list string) (w : world)
  : string :=
  let names := sort_Strings order in
  preamble
  +:+ writeAll contentsLine names
  +:+ (if (length names =? 0)%nat
       then "There are no plugins loaded." else nl)
  +:+ writeAll (pluginSection (pluginSpecs w) (length names)) names.

(** The keys of the map, in the order of its canonical enumeration. *)
Definition rangeKeys (w : world) : list string :=
  (map_to_list (pluginSpecs w)).*1.

Definition PluginDescriptions (w : world) : string :=
  PluginDescriptions_range (rangeKeys w) w.

(** One call of a caller of the package: [RegisterPlugin(typeString,
    configConstructor, constructor)] or [DocumentPlugin(typeString,
    description, configSanitiser)], with its arguments. *)
Inductive call : Type :=
  | CallRegister (typeString : string)
      (configConstructor : PluginConfigConstructor)
      (ctor : PluginConstructor)
  | CallDocument (typeString desc : string)
      (configSanitiser : PluginConfigSanitiser).

Definition callTag (c : call) : string :=
  match c with
  | CallRegister typeString _ _ => typeString
  | CallDocument typeString _ _ => typeString
  end.

(** The effect of one call on the package-level state. *)
Definition perform (c : call) (w : world) : world :=
  match c with
  | CallRegister typeString configConstructor ctor =>
      RegisterPlugin typeString configConstructor ctor w
  | CallDocument typeString desc configSanitiser =>
      DocumentPlugin typeString desc configSanitiser w
  end.

(** A sequence of calls, first call first (the registrations of the [init]
    functions of a program). *)
Definition performAll (calls : list call) (w : world) : world :=
  foldl (λ w c, perform c w) w calls.

(** The arguments of the last [RegisterPlugin] call of a sequence under
    [name], if there is one. *)
Fixpoint lastRegistered (name : string) (calls : list call)
  : option (PluginConfigConstructor * PluginConstructor) :=
  match calls with
  | [] => None
  | c :: calls =>
      match lastRegistered name calls with
      | Some r => Some r
      | None =>
          match c with
          | CallRegister typeString configConstructor ctor =>
              if decide (typeString = name)
              then Some (configConstructor, ctor) else None
          | CallDocument _ _ _ => None
          end
      end
  end.

(** The arguments of the last [DocumentPlugin] call of a sequence under
    [name], if there is one. *)
Fixpoint lastDocumented (name : string) (calls : list call)
  : option (string * PluginConfigSanitiser) :=
  match calls with
  | [] => None
  | c :: calls =>
      match lastDocumented name calls with
      | Some r => Some r
      | None =>
          match c with
          | CallDocument typeString desc configSanitiser =>
              if decide (typeString = name)
              then Some (desc, configSanitiser) else None
          | CallRegister _ _ _ => None
          end
      end
  end.

(** The type strings of the [RegisterPlugin] calls of a sequence, in call
    order. *)
Definition registeredTags (calls : list call) : list string :=
  omap (λ c, match c with
             | CallRegister typeString _ _ => Some typeString
             | CallDocument _ _ _ => None
             end) calls.

End registry.

(** A concrete instance, for running the registry: function values are named
    by strings, [plugins.Add] appends to a log. *)
Module Sample.
#[local] Instance sampleTypes : FuncTypes :=
  {| PluginConstructor := string; ConfFn := string; SanitFn := string;
     OutputFn := string; Interop := list (string * string) |}.
#[local] Instance sampleExternals : Externals :=
  {| fromSimpleConstructor := λ c, match c with pluginClosure f => Some f end;
     plugins_Add := λ name ctype (log : list (string * string)),
                     log ++ [(name, ctype)];
     exampleYAML := λ _ name confCtor, Some (confCtor +:+ nl) |}.
Definition emptyWorld : world := {| pluginSpecs := ∅; interop := [] |}.
Definition reg := RegisterPlugin (EX := sampleExternals).
Definition doc := DocumentPlugin (FT := sampleTypes).
Definition spec := mkPluginSpec (FT := sampleTypes).
Definition documented : world :=
  doc "foo" "Writes to foo." (Some "trim") emptyWorld.
Definition threePlugins : world :=
  doc "zed" "A zed." None
    (reg "foo" (Some "cfg") "ctor" (reg "bar" None "c2" emptyWorld)).
Definition sampleCalls : list (call (FT := sampleTypes)) :=
  [ CallRegister "bar" None "c2";
    CallDocument "foo" "Early words." None;
    CallRegister "foo" (Some "cfg") "ctor";
    CallDocument "zed" "A zed." None;
    CallRegister "bar" (Some "cfg2") "c3" ].
End Sample.

End Registry.

(** ** The configuration assembler

    The assembler (package [lib/service/test] and what it calls) is exercised
    by the test file of the repository, but its code is not among the
    sources.  Its components are modelled from their specification, one
    definition per operation; the documents of the test file are the sample
    inputs. *)

Module Assembler.

(** Modelled from the spec: the Document of the data model (the tree type of
    the document parser is not among the sources), "immutable parsed tree
    (nested maps/sequences/scalars)".  A mapping keeps its entries in
    document order. *)
#[warnings="-register-all"]
Inductive node : Type :=
  | Scalar (s : string)
  | Seq (items : list node)
  | Map (fields : list (string * node)).


(** Modelled from the spec: the three failure causes of the Path Navigator
    (not among the sources),
    "missing key, indexing into a non-sequence, index out of range". *)
Inductive pathCause : Type :=
  | MissingKey
  | NotIndexable
  | IndexOutOfRange.

(** Modelled from the spec: the errors of the assembler (not among the
    sources), the taxonomy of section 7.  [location] and
    [cause] are what the document parser and a stage constructor report.
    [MalformedStage] is the one addition: the spec requires a stage entry to
    be a single-key mapping and names no error for an entry that is not. *)
Inductive error {Location Cause : Type} : Type :=
  | FileNotFound (path : string)
  | ParseError (path : string) (location : Location)
  | PathNotFound (cause : pathCause) (segment : string) (position : nat)
  | BadReferenceSyntax (reference : node)
  | ReferenceCycle (docPath : string) (pointer : list string)
  | ReferenceTargetNotFound (docPath : string) (pointer : list string)
  | ResourceCollision (file category name : string)
  | UnknownType (tag : string)
  | UnknownConfigField (stageIndex : nat) (field : string)
  | StageConstructionError (stageIndex : nat) (tag : string) (cause : Cause)
  | MalformedStage (stageIndex : nat).
Arguments error : clear implicits.

(** Modelled from the spec: the "X | error" results of the operations of
    section 4 (their Go signatures are not among the sources). *)
Inductive result (E A : Type) : Type :=
  | Ok (a : A)
  | Err (e : E).
Arguments Ok {E A} a.
Arguments Err {E A} e.

(** Sequencing: the first failure is the result ("every error returns
    immediately"). *)
Definition bind {E A B} (r : result E A) (k : A → result E B) : result E B :=
  match r with
  | Ok a => k a
  | Err e => Err e
  end.

(** The same for an operation that may also run out of fuel ([None]). *)
Definition bindF {E A B} (r : option (result E A))
    (k : A → option (result E B)) : option (result E B) :=
  match r with
  | None => None
  | Some (Err e) => Some (Err e)
  | Some (Ok a) => k a
  end.

(** [f] over a list, left to right, stopping at the first failure. *)
Fixpoint mapF {E A B} (f : A → option (result E B)) (l : list A)
  : option (result E (list B)) :=
  match l with
  | [] => Some (Ok [])
  | x :: l => bindF (f x) (λ y, bindF (mapF f l) (λ ys, Some (Ok (y :: ys))))
  end.

(** *** Path Navigator: pointers *)

(** Modelled from the spec: the "/-separated segments" of a pointer of the
    Path Navigator (not among the sources): the pieces of [s] between the
    occurrences of [sep]; [cur] is the piece being read. *)
Fixpoint splitOn (sep : ascii) (cur s : string) : list string :=
  match s with
  | "" => [cur]
  | String c rest =>
      if decide (c = sep) then cur :: splitOn sep "" rest
      else splitOn sep (cur +:+ String c "") rest
  end.

(** Modelled from the spec: the pointer syntax of the Path Navigator (not
    among the sources), "leading slash, /-separated segments ... Empty/"/"
    pointer returns the whole document." *)
Definition parsePointer (p : string) : list string :=
  match p with
  | "" => []
  | String c rest =>
      if decide (c = "/"%char)
      then match rest with "" => [] | _ => splitOn "/" "" rest end
      else splitOn "/" "" p
  end.

(** Modelled from the spec: a segment of the Path Navigator (not among the
    sources) read as "a nonnegative integer index". *)
Fixpoint parseDigits (acc : nat) (s : string) : option nat :=
  match s with
  | "" => Some acc
  | String c rest =>
      match Ascii.is_nat c with
      | Some d => parseDigits (acc * 10 + d) rest
      | None => None
      end
  end.

Definition parseIndex (s : string) : option nat :=
  match s with
  | "" => None
  | _ => parseDigits 0 s
  end.

(** Modelled from the spec: a segment of the Path Navigator (not among the
    sources) read as "a mapping key": the value of the first entry under
    [key]. *)
Fixpoint field (key : string) (fields : list (string * node)) : option node :=
  match fields with
  | [] => None
  | (k, v) :: rest => if decide (k = key) then Some v else field key rest
  end.


(** *** Environment Interpolator *)

(** Modelled from the spec: the NAME of a placeholder of the Environment
    Interpolator (not among the sources): letters, digits and the underscore.
    The spec fixes no alphabet; with this one the text [${! meta("foo") }]
    of the test document is no placeholder and stays as it is, as the test
    expects. *)
Definition isNameChar (c : ascii) : bool :=
  let n := nat_of_ascii c in
  (((48 <=? n) && (n <=? 57)) || ((65 <=? n) && (n <=? 90))
   || ((97 <=? n) && (n <=? 122)) || (n =? 95))%nat.

(** Modelled from the spec: the Environment Interpolator (not among the
    sources), "Resolution order per placeholder: (1)
    overrides[NAME] if present — substituted verbatim, not itself
    re-interpolated; (2) else the literal default text if the :default clause
    is present; (3) else the empty string." *)
Definition resolve (overrides : gmap string string) (name : string)
    (dflt : option string) : string :=
  match overrides !! name with
  | Some v => v
  | None => match dflt with Some d => d | None => "" end
  end.

(** Modelled from the spec: the states of the Environment Interpolator (not
    among the sources) while it reads a scalar: in plain text, after ["$"],
    inside the NAME after ["${"], or inside the default after ["${NAME:"]. *)
Inductive scan : Type :=
  | InText
  | AfterDollar
  | InName (name : string)
  | InDefault (name dflt : string).

(** Modelled from the spec: the text that the Environment Interpolator (not
    among the sources) has read since the last ["$"], put back when it turns
    out to be no placeholder. *)
Definition pending (st : scan) : string :=
  match st with
  | InText => ""
  | AfterDollar => "$"
  | InName name => "${" +:+ name
  | InDefault name dflt => "${" +:+ name +:+ ":" +:+ dflt
  end.

(** Modelled from the spec: [interpolate] of the Environment Interpolator
    (not among the sources) on one scalar string, "replaces
    each placeholder matching ${NAME} or ${NAME:default} independently, left
    to right, non-overlapping".  One pass over the characters. *)
Fixpoint scanFrom (overrides : gmap string string) (st : scan) (s : string)
  : string :=
  match s with
  | "" => pending st
  | String c rest =>
      let plain :=
        if decide (c = "$"%char) then scanFrom overrides AfterDollar rest
        else String c (scanFrom overrides InText rest) in
      match st with
      | InText => plain
      | AfterDollar =>
          if decide (c = "{"%char) then scanFrom overrides (InName "") rest
          else "$" +:+ plain
      | InName name =>
          if isNameChar c
          then scanFrom overrides (InName (name +:+ String c "")) rest
          else if decide (name = "") then pending st +:+ plain
          else if decide (c = "}"%char)
            then resolve overrides name None +:+ scanFrom overrides InText rest
          else if decide (c = ":"%char)
            then scanFrom overrides (InDefault name "") rest
          else pending st +:+ plain
      | InDefault name dflt =>
          if decide (c = "}"%char)
          then resolve overrides name (Some dflt)
               +:+ scanFrom overrides InText rest
          else scanFrom overrides (InDefault name (dflt +:+ String c "")) rest
      end
  end.

Definition interpolate (s : string) (overrides : gmap string string) : string :=
  scanFrom overrides InText s.

(** Modelled from the spec: [interpolate(tree, overrides) -> tree] of the
    Environment Interpolator (not among the sources),
    "recursively walks every scalar string in the tree". *)
Fixpoint interpolateTree (overrides : gmap string string) (n : node) : node :=
  match n with
  | Scalar s => Scalar (interpolate s overrides)
  | Seq items => Seq (map (interpolateTree overrides) items)
  | Map fields =>
      Map (map (λ kv, match kv with
                      | (k, v) => (k, interpolateTree overrides v)
                      end) fields)
  end.

(** The spec's reading of a scalar, for comparison with the scanner: a
    sequence of plain text and placeholders [${NAME}] / [${NAME:default}]. *)
Inductive token : Type :=
  | Plain (text : string)
  | Placeholder (name : string) (dflt : option string).

(** The text of a token, as it is written in a document. *)
Definition written (t : token) : string :=
  match t with
  | Plain text => text
  | Placeholder name None => "${" +:+ name +:+ "}"
  | Placeholder name (Some d) => "${" +:+ name +:+ ":" +:+ d +:+ "}"
  end.

(** What the spec puts in place of a token. *)
Definition substituted (overrides : gmap string string) (t : token) : string :=
  match t with
  | Plain text => text
  | Placeholder name dflt => resolve overrides name dflt
  end.

Definition concat (l : list string) : string := foldr String.app "" l.

(** No character of [s] satisfies [p]. *)
Fixpoint noneOf (p : ascii → bool) (s : string) : bool :=
  match s with
  | "" => true
  | String c rest => negb (p c) && noneOf p rest
  end.

Fixpoint allOf (p : ascii → bool) (s : string) : bool :=
  match s with
  | "" => true
  | String c rest => p c && allOf p rest
  end.

(** A token that reads back as itself: plain text has no ["$"], a NAME is a
    nonempty run of name characters, a default has no ["}"]. *)
Definition wellFormed (t : token) : bool :=
  match t with
  | Plain text => noneOf (λ c, bool_decide (c = "$"%char)) text
  | Placeholder name dflt =>
      bool_decide (name ≠ "") && allOf isNameChar name
      && match dflt with
         | Some d => noneOf (λ c, bool_decide (c = "}"%char)) d
         | None => true
         end
  end.

(** The spec's reading of interpolation on any scalar, for comparison with
    the scanner: "each placeholder matching ${NAME} or ${NAME:default}" is
    found "left to right, non-overlapping" and replaced; every other
    character stays.  The definitions below look for a whole placeholder at
    one position and share nothing with the scanner. *)

(** The longest run of name characters at the head of [s], and the rest. *)
Fixpoint spanName (s : string) : string * string :=
  match s with
  | "" => ("", "")
  | String c rest =>
      if isNameChar c
      then match spanName rest with (name, after) => (String c name, after) end
      else ("", s)
  end.

(** The text before the first ["}"] of [s], and the text after it. *)
Fixpoint untilBrace (s : string) : option (string * string) :=
  match s with
  | "" => None
  | String c rest =>
      if decide (c = "}"%char) then Some ("", rest)
      else match untilBrace rest with
           | Some (d, after) => Some (String c d, after)
           | None => None
           end
  end.

(** The placeholder that starts at the head of [s], if one does: its NAME,
    its default if it has the [:default] clause, and the text after its
    ["}"]. *)
Definition placeholderAt (s : string)
  : option (string * option string * string) :=
  match s with
  | String c1 (String c2 rest) =>
      if decide (c1 = "$"%char ∧ c2 = "{"%char)
      then match spanName rest with
           | (name, after) =>
               if decide (name = "") then None
               else match after with
                    | String c after' =>
                        if decide (c = "}"%char) then Some (name, None, after')
                        else if decide (c = ":"%char)
                        then match untilBrace after' with
                             | Some (d, after'') => Some (name, Some d, after'')
                             | None => None
                             end
                        else None
                    | "" => None
                    end
           end
      else None
  | _ => None
  end.

(** Replacement of the placeholders of [s] from left to right: where a
    placeholder starts, what it resolves to is written and the reading goes
    on after it; elsewhere the character is written.  [fuel] bounds the
    number of steps; the length of [s] is enough. *)
Fixpoint replaceFuel (overrides : gmap string string) (fuel : nat) (s : string)
  : string :=
  match fuel with
  | O => ""
  | S fuel =>
      match s with
      | "" => ""
      | String c rest =>
          match placeholderAt s with
          | Some (name, dflt, after) =>
              resolve overrides name dflt +:+ replaceFuel overrides fuel after
          | None => String c (replaceFuel overrides fuel rest)
          end
      end
  end.

Definition replacePlaceholders (s : string) (overrides : gmap string string)
  : string :=
  replaceFuel overrides (String.length s) s.

(** *** Collaborators *)

(** Modelled from the spec: the external collaborators of section 6 (none
    of them is among the sources).
    - [parseDocument] is the Document Parser, "converts raw bytes into a
      generic map/sequence/scalar tree; parse failures surface as
      ParseError(location)";
    - [canonical] gives the canonical form of a file path (section 4.1);
    - [resolvePath cur path] is the canonical path of [path] "resolved
      relative to the directory of currentDocPath" (section 4.3);
    - [Stage] is the ConstructedStage, [Cause] what a constructor reports
      when it fails, [Deps] the logger and the metrics sink of the Shared
      Dependency Context. *)
Class Collaborators : Type := {
  Location : Type;
  Cause : Type;
  Stage : Type;
  Deps : Type;
  parseDocument : string → result Location node;
  canonical : string → string;
  resolvePath : string → string → string
}.

Section assembler.
Context `{CO : Collaborators}.
Local Abbreviation error := (error Location Cause).

(** *** Path Navigator: navigation *)

(** Modelled from the spec: the Path Navigator (not among the sources),
    [navigate(doc, pointer) -> node | PathNotFound(segment)], "a segment is a mapping key, or — when the
    current node is a sequence — a nonnegative integer index", each failure
    "carrying the failing segment and its position". *)
Fixpoint navigateFrom (position : nat) (n : node) (pointer : list string)
  : result error node :=
  match pointer with
  | [] => Ok n
  | seg :: rest =>
      match n with
      | Map fields =>
          match field seg fields with
          | Some v => navigateFrom (S position) v rest
          | None => Err (PathNotFound MissingKey seg position)
          end
      | Seq items =>
          match parseIndex seg with
          | Some i =>
              match items !! i with
              | Some v => navigateFrom (S position) v rest
              | None => Err (PathNotFound IndexOutOfRange seg position)
              end
          | None => Err (PathNotFound MissingKey seg position)
          end
      | Scalar _ => Err (PathNotFound NotIndexable seg position)
      end
  end.

Definition navigate (doc : node) (pointer : list string) : result error node :=
  navigateFrom 0 doc pointer.


(** *** Document Store *)

(** Modelled from the spec: the Document Store (not among the sources),
    [load(path) -> Document | FileNotFound | ParseError(location)], over the
    files [fs] keyed by canonical path.  The cache of parsed trees changes no
    result and is left out. *)
Definition load (fs : gmap string string) (path : string) : result error node :=
  match fs !! canonical path with
  | None => Err (FileNotFound path)
  | Some bytes =>
      match parseDocument bytes with
      | Ok doc => Ok doc
      | Err location => Err (ParseError path location)
      end
  end.

(** *** Reference Expander *)

(** Modelled from the spec: the Reference Expander (not among the sources),
    "A node is a reference iff it is a mapping with exactly one key,
    literally $ref"; the result is the value under the key. *)
Definition isReference (fields : list (string * node)) : option node :=
  match fields with
  | [(k, v)] => if decide (k = "$ref") then Some v else None
  | _ => None
  end.

(** Modelled from the spec: the Reference Expander (not among the sources),
    a value that "matches <relativeOrAbsolutePath>#<pointer>": the two sides
    of its first ["#"]. *)
Fixpoint splitRefFrom (path s : string) : option (string * string) :=
  match s with
  | "" => None
  | String c rest =>
      if decide (c = "#"%char) then Some (path, rest)
      else splitRefFrom (path +:+ String c "") rest
  end.

Definition splitRef (s : string) : option (string * string) :=
  splitRefFrom "" s.

(** Modelled from the spec: the "call-stack of in-progress (docPath,
    pointer) pairs" of the Reference Expander (not among the sources). *)
Definition refStack : Type := list (string * list string).

Section walk.
Variable fs : gmap string string.

(** [follow stack target t] expands the content [t] found at a reference
    target. *)
Variable follow : refStack → string → node → option (result error node).

Section children.
Variable walk : node → option (result error node).

(** Modelled from the spec: the "depth-first walk" of the Reference Expander
    (not among the sources) over the items of a sequence and the values of a
    mapping, left to right, stopping at the first failure. *)
Fixpoint walkItems (items : list node) : option (result error (list node)) :=
  match items with
  | [] => Some (Ok [])
  | x :: rest =>
      bindF (walk x) (λ y,
        bindF (walkItems rest) (λ ys, Some (Ok (y :: ys))))
  end.

Fixpoint walkFields (fields : list (string * node))
  : option (result error (list (string * node))) :=
  match fields with
  | [] => Some (Ok [])
  | (k, v) :: rest =>
      bindF (walk v) (λ y,
        bindF (walkFields rest) (λ ys, Some (Ok ((k, y) :: ys))))
  end.
End children.

(** Modelled from the spec: the Reference Expander (not among the sources)
    at one reference.  "The path is resolved relative to
    the directory of currentDocPath; the pointer is resolved via 4.2 against
    the loaded target Document. ... A call-stack of in-progress (docPath,
    pointer) pairs detects revisits and fails fast with ReferenceCycle". *)
Definition expandReference (stack : refStack) (cur : string) (n value : node)
  : option (result error node) :=
  match value with
  | Scalar s =>
      match splitRef s with
      | Some (path, ptr) =>
          let target := resolvePath cur path in
          let pointer := parsePointer ptr in
          if decide ((target, pointer) ∈ stack)
          then Some (Err (ReferenceCycle target pointer))
          else
            match load fs target with
            | Err _ => Some (Err (ReferenceTargetNotFound target pointer))
            | Ok doc =>
                match navigate doc pointer with
                | Err _ => Some (Err (ReferenceTargetNotFound target pointer))
                | Ok t => follow ((target, pointer) :: stack) target t
                end
            end
      | None => Some (Err (BadReferenceSyntax n))
      end
  | _ => Some (Err (BadReferenceSyntax n))
  end.

(** Modelled from the spec: the Reference Expander (not among the sources),
    [expand(node, currentDocPath)], the depth-first walk of one document. *)
Fixpoint expandWith (stack : refStack) (cur : string) (n : node)
  : option (result error node) :=
  match n with
  | Scalar _ => Some (Ok n)
  | Seq items =>
      bindF (walkItems (expandWith stack cur) items) (λ l, Some (Ok (Seq l)))
  | Map fields =>
      match isReference fields with
      | Some value => expandReference stack cur n value
      | None =>
          bindF (walkFields (expandWith stack cur) fields)
            (λ l, Some (Ok (Map l)))
      end
  end.
End walk.

(** Modelled from the spec: the Reference Expander (not among the sources)
    with a bound on the depth of the reference chains it follows: "The
    substituted content is itself recursively expanded"; [None] is a chain
    deeper than the bound. *)
Fixpoint expandFuel (fs : gmap string string) (fuel : nat)
  : refStack → string → node → option (result error node) :=
  match fuel with
  | O => λ _ _ _, None
  | S fuel => expandWith fs (expandFuel fs fuel)
  end.

Definition expand (fs : gmap string string) (fuel : nat) (n : node)
    (currentDocPath : string) : option (result error node) :=
  expandFuel fs fuel [] currentDocPath n.


(** *** References, chains of references and the inlined tree *)






(** The spec's "fully inlined tree", for comparison with the expander:
    [Inlined fs cur n r] when [r] is the tree [n] of the document [cur] with
    every reference replaced by the content that it names, that content
    inlined in the same way, relative to the document it comes from.  The
    relation is given by the shape of the tree alone: it has no record of
    references in progress, no bound on the depth, no errors, and shares
    nothing with the expander but the Document Store and the Path
    Navigator.  The path of a reference is the text before its first
    ["#"]. *)
#[local] Set Warnings "-register-all".







(** [fields] with the value of the first entry under [key] replaced. *)
Fixpoint setField (key : string) (v : node) (fields : list (string * node))
  : list (string * node) :=
  match fields with
  | [] => []
  | (k, old) :: rest =>
      if decide (k = key) then (k, v) :: rest
      else (k, old) :: setField key v rest
  end.


(** *** Resource Merger *)

(** Modelled from the spec: the ResourceSet of the Resource Merger (not
    among the sources), "mapping from
    category name (e.g. "caches") to mapping from resource name to raw config
    node". *)
Local Abbreviation resourceSet := (gmap string (gmap string node)).

Definition rsLookup (rs : resourceSet) (category name : string) : option node :=
  rs !! category ≫= λ names, names !! name.

Definition rsInsert (category name : string) (v : node) (rs : resourceSet)
  : resourceSet :=
  <[category := <[name := v]> (default ∅ (rs !! category))]> rs.

(** Modelled from the spec: "each category and name present in an extra
    document" of the Resource Merger (not among the sources): the (category,
    name, node) entries of a set, category by category. *)
Definition categoryEntries (category : string) (names : gmap string node)
  : list (string * string * node) :=
  (λ '(name, v), (category, name, v)) <$> map_to_list names.

Definition rsEntries (rs : resourceSet) : list (string * string * node) :=
  map_to_list rs ≫= λ '(category, names), categoryEntries category names.

(** Modelled from the spec: the "size" of a set of the Resource Merger (not
    among the sources): the number of its (category, name) pairs. *)
Definition rsSize (rs : resourceSet) : nat :=
  sum_list (size <$> (map_to_list rs).*2).

(** Modelled from the spec: the Resource Merger (not among the sources) on
    one extra document.  "for each category and name
    present in an extra document, if that (category, name) already exists in
    the accumulated set, merging fails immediately, naming the offending
    extra file, category, and name". *)
Fixpoint addEntries (file : string) (entries : list (string * string * node))
    (acc : resourceSet) : result error resourceSet :=
  match entries with
  | [] => Ok acc
  | (category, name, v) :: rest =>
      match rsLookup acc category name with
      | Some _ => Err (ResourceCollision file category name)
      | None => addEntries file rest (rsInsert category name v acc)
      end
  end.

(** Modelled from the spec: the Resource Merger (not among the sources),
    [merge(primaryResources, extraDocs[]) -> ResourceSet |
    ResourceCollision(file, category, name)].  "Starts from the
    primary document's resource section ... Processes extra documents
    strictly in caller-supplied order". *)
Fixpoint merge (primaryResources : resourceSet)
    (extraDocs : list (string * resourceSet)) : result error resourceSet :=
  match extraDocs with
  | [] => Ok primaryResources
  | (file, rs) :: rest =>
      bind (addEntries file (rsEntries rs) primaryResources)
        (λ acc, merge acc rest)
  end.

(** [a] and [b] share no (category, name) pair. *)
Definition rsDisjoint (a b : resourceSet) : bool :=
  forallb (λ '(category, name, _),
             match rsLookup b category name with
             | Some _ => false
             | None => true
             end) (rsEntries a).

(** The sets of a list are pairwise disjoint. *)
Fixpoint pairwiseDisjoint (sets : list resourceSet) : bool :=
  match sets with
  | [] => true
  | a :: rest => forallb (rsDisjoint a) rest && pairwiseDisjoint rest
  end.

(** Modelled from the spec: the "resource section" of a document that the
    Resource Merger (not among the sources) reads: the mappings under
    ["resources"], as in the documents of the test file. *)
Definition categoryOf (n : node) : gmap string node :=
  match n with
  | Map names => list_to_map names
  | _ => ∅
  end.

Definition resourcesOf (tree : node) : resourceSet :=
  match tree with
  | Map fields =>
      match field "resources" fields with
      | Some (Map categories) =>
          list_to_map (prod_map id categoryOf <$> categories)
      | _ => ∅
      end
  | _ => ∅
  end.

(** *** Type Registry *)

(** Modelled from the spec: the context of the Pipeline Assembler (not among
    the sources), the "shared dependency context (resource handles
    from step 4, logger, metrics)" that every constructor receives. *)
Record context : Type := mkContext {
  handles : resourceSet;
  shared : Deps
}.

Definition stageConstructor : Type := node → context → result Cause Stage.

(** Modelled from the spec: the TypeSpec of the Type Registry that the
    assembler dispatches on (not among the sources), "type tag,
    constructor, optional default-config factory, optional config sanitiser,
    optional description, optional deprecated-alias flag". *)
Record TypeSpec : Type := mkTypeSpec {
  tag : string;
  construct : stageConstructor;
  defaultConfig : option (unit → node);
  sanitiser : option (node → node);
  describe : option string;
  deprecatedAlias : option bool
}.

(** Modelled from the spec: the Type Registry that the assembler dispatches
    on (not among the sources), [lookup(tag) -> TypeSpec | UnknownType]. *)
Definition lookup (registry : gmap string TypeSpec) (t : string)
  : result error TypeSpec :=
  match registry !! t with
  | Some spec => Ok spec
  | None => Err (UnknownType t)
  end.

(** Modelled from the spec: the deprecated registry that the assembler falls
    back on (its caller is not among the sources), [deprecatedLookup(tag) ->
    constructor | notFound]. *)
Definition deprecatedLookup (deprecated : gmap string stageConstructor)
    (t : string) : option stageConstructor :=
  deprecated !! t.

(** *** Pipeline Assembler *)

(** Modelled from the spec: the config overlay of the Pipeline Assembler (not
    among the sources), "overlay the raw node's fields onto the default
    (unknown fields in the raw node are a fatal UnknownConfigField(stageIndex,
    field))", "a recursive merge over a generic tagged value
    representation". *)
Fixpoint overlay (stageIndex : nat) (dflt raw : node) : result error node :=
  match raw with
  | Map rawFields =>
      match dflt with
      | Map dfltFields =>
          bind
            ((fix over (rawFields acc : list (string * node)) :=
                match rawFields with
                | [] => Ok acc
                | (k, v) :: rest =>
                    match field k acc with
                    | None => Err (UnknownConfigField stageIndex k)
                    | Some d =>
                        bind (overlay stageIndex d v)
                          (λ v', over rest (setField k v' acc))
                    end
                end) rawFields dfltFields)
            (λ merged, Ok (Map merged))
      | _ => Ok raw
      end
  | _ => Ok raw
  end.

(** Modelled from the spec: what the Pipeline Assembler (not among the
    sources) works in: the files it reads, the registries it dispatches on,
    and the logger and metrics it hands on. *)
Record environment : Type := mkEnvironment {
  files : gmap string string;
  registry : gmap string TypeSpec;
  deprecated : gmap string stageConstructor;
  deps : Deps
}.

(** Modelled from the spec: the PipelineRequest of the Pipeline Assembler
    (not among the sources), "(primary
    path, sub-path string, env override mapping, ordered list of extra
    resource paths)". *)
Record PipelineRequest : Type := mkRequest {
  primaryPath : string;
  subPath : string;
  envOverrides : gmap string string;
  extraResourcePaths : list string
}.

(** Modelled from the spec: a stage entry of the Pipeline Assembler (not
    among the sources), a "single-key mapping", the "key a
    type tag and its value the stage's raw config". *)
Definition stageEntry (stageIndex : nat) (entry : node)
  : result error (string * node) :=
  match entry with
  | Map [(t, raw)] => Ok (t, raw)
  | _ => Err (MalformedStage stageIndex)
  end.

(** Modelled from the spec: step 7 of [Provide] (not among the sources), a
    "per-stage construction failure ... returns
    StageConstructionError(stageIndex, tag, cause)". *)
Definition runConstructor (stageIndex : nat) (t : string)
    (c : stageConstructor) (config : node) (ctx : context)
  : result error Stage :=
  match c config ctx with
  | Ok stage => Ok stage
  | Err cause => Err (StageConstructionError stageIndex t cause)
  end.

(** Modelled from the spec: step 6 of [Provide] (not among the sources) for
    one entry, "look up the
    tag in the Type Registry, falling back to the deprecated registry on miss
    (UnknownType if both miss); if a default-config factory exists,
    instantiate it and overlay the raw node's fields onto the default ...;
    invoke the constructor with the resolved config and the shared dependency
    context". *)
Definition constructStage (env : environment) (ctx : context)
    (stageIndex : nat) (entry : node) : result error Stage :=
  bind (stageEntry stageIndex entry) (λ '(t, raw),
    match lookup (registry env) t with
    | Ok spec =>
        bind (match defaultConfig spec with
              | Some factory => overlay stageIndex (factory ()) raw
              | None => Ok raw
              end)
          (λ config, runConstructor stageIndex t (construct spec) config ctx)
    | Err unknown =>
        match deprecatedLookup (deprecated env) t with
        | Some c => runConstructor stageIndex t c raw ctx
        | None => Err unknown
        end
    end).

(** Modelled from the spec: steps 6 and 7 of [Provide] (not among the
    sources), "for each entry, in sequence
    order", "any per-stage construction failure aborts the whole call". *)
Fixpoint constructFrom (env : environment) (ctx : context) (stageIndex : nat)
    (entries : list node) : result error (list Stage) :=
  match entries with
  | [] => Ok []
  | entry :: rest =>
      bind (constructStage env ctx stageIndex entry) (λ stage,
        bind (constructFrom env ctx (S stageIndex) rest) (λ stages,
          Ok (stage :: stages)))
  end.

(** Modelled from the spec: the node selected by the sub-path of [Provide]
    (not among the sources), "a sequence of single-key mappings": the items
    of a sequence; a single entry counts as a sequence of one, as in the test of
    the repository that assembles [/pipeline/processors/3] into one stage. *)
Definition stageEntries (n : node) : list node :=
  match n with
  | Seq items => items
  | _ => [n]
  end.

(** Modelled from the spec: steps 1 to 3 of [Provide] (not among the
    sources) for one file: load,
    expand the references scoped to its path, interpolate. *)
Definition resolveDocument (fs : gmap string string) (fuel : nat)
    (overrides : gmap string string) (path : string)
  : option (result error node) :=
  match load fs path with
  | Err e => Some (Err e)
  | Ok doc =>
      bindF (expand fs fuel doc path)
        (λ tree, Some (Ok (interpolateTree overrides tree)))
  end.

(** Modelled from the spec: step 4 of [Provide] (not among the sources),
    "load each (4.1), expand/interpolate each
    the same way, and merge all resource sections via 4.5". *)
Definition resolveResources (fs : gmap string string) (fuel : nat)
    (overrides : gmap string string) (primary : node) (extras : list string)
  : option (result error resourceSet) :=
  bindF (mapF (λ path,
                 bindF (resolveDocument fs fuel overrides path)
                   (λ tree, Some (Ok (path, resourcesOf tree))))
           extras)
    (λ docs, Some (merge (resourcesOf primary) docs)).

(** Modelled from the spec: the Pipeline Assembler (not among the sources),
    [Provide(primaryPath, subPath, envOverrides, extraResourcePaths) ->
    []ConstructedStage | error], the steps "strictly in order".  [fuel] bounds the depth of the reference chains. *)
Definition Provide (env : environment) (fuel : nat) (req : PipelineRequest)
  : option (result error (list Stage)) :=
  bindF (resolveDocument (files env) fuel (envOverrides req) (primaryPath req))
    (λ tree,
      bindF (resolveResources (files env) fuel (envOverrides req) tree
               (extraResourcePaths req))
        (λ resources,
          Some (bind (navigate tree (parsePointer (subPath req)))
                  (λ n, constructFrom env
                          {| handles := resources; shared := deps env |} 0
                          (stageEntries n))))).

End assembler.

(** The documents of the repository's test file, for running the assembler:
    the parser is a table from file contents to trees, all files live in one
    directory, a stage is its tag and its resolved config, and a cache stage
    needs its cache among the resource handles. *)
Module Sample.

Definition dq : string := String "034"%char "".

Definition memoryCache : node := Map [("memory", Map [])].

Definition processors1 : node :=
  Seq [ Map [("metadata", Map [("operator", Scalar "set");
                               ("key", Scalar "foo");
                               ("value", Scalar "${FOO_VAR:defaultvalue}")])];
        Map [("cache", Map [("cache", Scalar "foocache");
                            ("operator", Scalar "set");
                            ("key", Scalar "defaultkey");
                            ("value", Scalar ("${! meta(" +:+ dq +:+ "foo"
                                              +:+ dq +:+ ") }"))])];
        Map [("cache", Map [("cache", Scalar "foocache");
                            ("operator", Scalar "get");
                            ("key", Scalar "defaultkey")])];
        Map [("text", Map [("operator", Scalar "to_upper")])] ].

Definition fooResources : node :=
  Map [("caches", Map [("foocache", memoryCache)])].

Definition config1 : node :=
  Map [("resources", fooResources);
       ("pipeline", Map [("processors", processors1)])].

Definition config2 : node :=
  Map [("resources", fooResources);
       ("pipeline",
        Map [("processors",
              Map [("$ref", Scalar "./config1.yaml#/pipeline/processors")])])].

Definition config3 : node :=
  Map [("pipeline",
        Map [("processors", Seq [Map [("type", Scalar "doesnotexist")]])])].

Definition resources1 : node :=
  Map [("resources", Map [("caches", Map [("barcache", memoryCache)])])].

Definition resources2 : node :=
  Map [("resources", Map [("caches", Map [("bazcache", memoryCache)])])].

Definition cacheConfig (cache value : string) : node :=
  Map [("cache", Scalar cache); ("operator", Scalar "set");
       ("key", Scalar "defaultkey"); ("value", Scalar value)].

Definition setCache (cache value : string) : node :=
  Map [("cache", cacheConfig cache value)].

Definition config4 : node :=
  Map [("resources", fooResources);
       ("pipeline",
        Map [("processors",
              Seq [setCache "foocache" "foo"; setCache "barcache" "bar";
                   setCache "bazcache" "bar"])])].

Definition loop1 : node :=
  Map [("pipeline", Map [("$ref", Scalar "./loop2.yaml#/pipeline")])].

Definition loop2 : node :=
  Map [("pipeline", Map [("$ref", Scalar "./loop1.yaml#/pipeline")])].

(** A document with a reference, two mappings deep, to a node that holds
    the reference. *)
Definition nest : node :=
  Map [("a", Map [("b", Map [("$ref", Scalar "./nest.yaml#/a")])])].

Definition sampleParse (bytes : string) : result nat node :=
  if decide (bytes = "<config1>") then Ok config1
  else if decide (bytes = "<config2>") then Ok config2
  else if decide (bytes = "<config3>") then Ok config3
  else if decide (bytes = "<resources1>") then Ok resources1
  else if decide (bytes = "<resources2>") then Ok resources2
  else if decide (bytes = "<config4>") then Ok config4
  else if decide (bytes = "<loop1>") then Ok loop1
  else if decide (bytes = "<loop2>") then Ok loop2
  else if decide (bytes = "<nest>") then Ok nest
  else Err 2.

Definition dir : string := "/tmp/test/".

Definition sampleResolve (cur path : string) : string :=
  match path with
  | String "." (String "/" rest) => dir +:+ rest
  | _ => path
  end.

#[local] Instance sampleCollaborators : Collaborators :=
  {| Location := nat; Cause := string; Stage := string * node; Deps := unit;
     parseDocument := sampleParse; canonical := id;
     resolvePath := sampleResolve |}.

Definition sampleFiles : gmap string string :=
  list_to_map [ (dir +:+ "config1.yaml", "<config1>");
                (dir +:+ "config2.yaml", "<config2>");
                (dir +:+ "config3.yaml", "<config3>");
                (dir +:+ "broken.yaml", "this isnt valid yaml");
                (dir +:+ "resources1.yaml", "<resources1>");
                (dir +:+ "resources2.yaml", "<resources2>");
                (dir +:+ "resources3.yaml", "<resources1>");
                (dir +:+ "config4.yaml", "<config4>");
                (dir +:+ "loop1.yaml", "<loop1>");
                (dir +:+ "loop2.yaml", "<loop2>");
                (dir +:+ "nest.yaml", "<nest>") ].

Definition plainStage (t : string) : stageConstructor :=
  λ config _, Ok (t, config).

Definition cacheStage : stageConstructor :=
  λ config ctx,
    match config with
    | Map fields =>
        match field "cache" fields with
        | Some (Scalar name) =>
            match rsLookup (handles ctx) "caches" name with
            | Some _ => Ok ("cache", config)
            | None => Err ("cache not found: " +:+ name)
            end
        | _ => Err "no cache named"
        end
    | _ => Err "no cache named"
    end.

Definition sampleSpec (t : string) (c : stageConstructor) : TypeSpec :=
  {| tag := t; construct := c; defaultConfig := None; sanitiser := None;
     describe := None; deprecatedAlias := None |}.

Definition sampleEnv : environment :=
  {| files := sampleFiles;
     registry := list_to_map [ ("metadata", sampleSpec "metadata" (plainStage "metadata"));
                               ("cache", sampleSpec "cache" cacheStage) ];
     deprecated := list_to_map [ ("text", plainStage "text") ];
     deps := () |}.

Definition request (file sub : string) (overrides : gmap string string)
    (extras : list string) : PipelineRequest :=
  {| primaryPath := dir +:+ file; subPath := sub; envOverrides := overrides;
     extraResourcePaths := (λ f, dir +:+ f) <$> extras |}.

End Sample.

End Assembler.

(** * Strings *)

Module StringFacts.

Lemma app_cons c (s t : string) : String c s +:+ t = String c (s +:+ t).
Proof. reflexivity. Qed.

Lemma app_empty_l (t : string) : "" +:+ t = t.
Proof. reflexivity. Qed.

Lemma app_empty_r (s : string) : s +:+ "" = s.
Proof. induction s as [|c s IH]; [done|]. by rewrite app_cons, IH. Qed.

Lemma app_assoc (s t u : string) : (s +:+ t) +:+ u = s +:+ (t +:+ u).
Proof.
  induction s as [|c s IH]; [done|]. by rewrite !app_cons, IH.
Qed.

Lemma app_snoc (s : string) c (t : string) :
  (s +:+ String c "") +:+ t = s +:+ String c t.
Proof. by rewrite app_assoc. Qed.

Lemma string_length_app (s t : string) :
  String.length (s +:+ t) = String.length s + String.length t.
Proof.
  induction s as [|c s IH]; [done|]. rewrite app_cons. simpl. by rewrite IH.
Qed.

Lemma concat_empty_sep (l : list string) :
  String.concat "" l = foldr String.app "" l.
Proof.
  induction l as [|x [|y l] IH]; [done| |].
  - simpl. by rewrite app_empty_r.
  - change (x +:+ "" +:+ String.concat "" (y :: l)
            = x +:+ foldr String.app "" (y :: l)).
    by rewrite IH.
Qed.

End StringFacts.

(** * Properties of the plugin registry *)

Module RegistryFacts.
Import Registry.

Section facts.
Context `{EX : Externals}.

Lemma index_lookup_Some (m : gmap string pluginSpec) name spec :
  m !! name = Some spec → index m name = spec.
Proof. unfold index. by intros ->. Qed.

Lemma index_lookup_None (m : gmap string pluginSpec) name :
  m !! name = None → index m name = zeroSpec.
Proof. unfold index. by intros ->. Qed.

Lemma RegisterPlugin_lookup tag cf c (w : world) :
  pluginSpecs (RegisterPlugin tag cf c w) !! tag =
    Some {| constructor := fromSimpleConstructor (pluginClosure c);
            confConstructor := cf;
            confSanitiser := confSanitiser (index (pluginSpecs w) tag);
            description := description (index (pluginSpecs w) tag) |}.
Proof. unfold RegisterPlugin; simpl. by rewrite lookup_insert_eq. Qed.

Lemma RegisterPlugin_lookup_ne tag other cf c (w : world) :
  other ≠ tag →
  pluginSpecs (RegisterPlugin tag cf c w) !! other = pluginSpecs w !! other.
Proof. intros Hne. unfold RegisterPlugin; simpl. by rewrite lookup_insert_ne. Qed.

Lemma DocumentPlugin_lookup tag d s (w : world) :
  pluginSpecs (DocumentPlugin tag d s w) !! tag =
    Some {| constructor := constructor (index (pluginSpecs w) tag);
            confConstructor := confConstructor (index (pluginSpecs w) tag);
            confSanitiser := s;
            description := d |}.
Proof. unfold DocumentPlugin; simpl. by rewrite lookup_insert_eq. Qed.

Lemma DocumentPlugin_lookup_ne tag other d s (w : world) :
  other ≠ tag →
  pluginSpecs (DocumentPlugin tag d s w) !! other = pluginSpecs w !! other.
Proof. intros Hne. unfold DocumentPlugin; simpl. by rewrite lookup_insert_ne. Qed.

(** C5.  [RegisterPlugin] is a total function of the registry (it has no
    failing path), and after two successive registrations under one tag the
    entry of that tag carries the constructor and the config factory of the
    second call; the second call adds no entry, and the entries of the
    other tags are those of before. *)
Theorem RegisterPlugin_last_write_wins tag cf1 c1 cf2 c2 (w : world) :
  let w1 := RegisterPlugin tag cf1 c1 w in
  let w2 := RegisterPlugin tag cf2 c2 w1 in
  (∃ spec, pluginSpecs w2 !! tag = Some spec
           ∧ constructor spec = fromSimpleConstructor (pluginClosure c2)
           ∧ confConstructor spec = cf2)
  ∧ PluginCount w2 = PluginCount w1
  ∧ dom (pluginSpecs w2) = {[tag]} ∪ dom (pluginSpecs w)
  ∧ GetDeprecatedPlugin tag w2
      = (ConstructorFunc (fromSimpleConstructor (pluginClosure c2)), true)
  ∧ (∀ other, other ≠ tag → pluginSpecs w2 !! other = pluginSpecs w !! other).
Proof.
  intros w1 w2. subst w1 w2. split_and!.
  - eexists. split; [apply RegisterPlugin_lookup|done].
  - unfold PluginCount. unfold RegisterPlugin at 1. simpl.
    apply map_size_insert_Some. rewrite lookup_insert_eq. eauto.
  - unfold RegisterPlugin; simpl. rewrite !dom_insert_L.
    by rewrite (assoc_L (∪)), (idemp_L (∪)).
  - unfold GetDeprecatedPlugin. by rewrite RegisterPlugin_lookup.
  - intros other Hne. by rewrite !RegisterPlugin_lookup_ne.
Qed.

(** C6.  [GetDeprecatedPlugin] answers with the entry's constructor and
    [true] when the registry has an entry under the name, with [nil] and
    [false] when it has none, and its boolean is [true] exactly in the
    first case. *)
Theorem GetDeprecatedPlugin_found_iff name (w : world) :
  (∀ spec, pluginSpecs w !! name = Some spec →
     GetDeprecatedPlugin name w = (ConstructorFunc (constructor spec), true))
  ∧ (pluginSpecs w !! name = None → GetDeprecatedPlugin name w = (None, false))
  ∧ ((GetDeprecatedPlugin name w).2 = true ↔ is_Some (pluginSpecs w !! name)).
Proof.
  unfold GetDeprecatedPlugin. split_and!.
  - by intros spec ->.
  - by intros ->.
  - destruct (pluginSpecs w !! name) as [spec|]; simpl; split.
    + eauto.
    + done.
    + done.
    + by intros [x Hx].
Qed.

(** C8.  For a tag that has an entry, [RegisterPlugin] writes the
    constructor and the config factory and keeps the description and the
    sanitiser; [DocumentPlugin] writes the description and the sanitiser and
    keeps the constructor and the config factory.  Neither touches the entry
    of another tag. *)
Theorem Register_Document_frame tag spec (w : world)
    (Hspec : pluginSpecs w !! tag = Some spec) :
  (∀ cf c,
     pluginSpecs (RegisterPlugin tag cf c w) !! tag =
       Some {| constructor := fromSimpleConstructor (pluginClosure c);
               confConstructor := cf;
               confSanitiser := confSanitiser spec;
               description := description spec |}
     ∧ ∀ other, other ≠ tag →
         pluginSpecs (RegisterPlugin tag cf c w) !! other
         = pluginSpecs w !! other)
  ∧ (∀ d s,
     pluginSpecs (DocumentPlugin tag d s w) !! tag =
       Some {| constructor := constructor spec;
               confConstructor := confConstructor spec;
               confSanitiser := s;
               description := d |}
     ∧ ∀ other, other ≠ tag →
         pluginSpecs (DocumentPlugin tag d s w) !! other
         = pluginSpecs w !! other).
Proof.
  split; intros; (split; [|intros other Hne]).
  - rewrite RegisterPlugin_lookup. by rewrite (index_lookup_Some _ _ _ Hspec).
  - by apply RegisterPlugin_lookup_ne.
  - rewrite DocumentPlugin_lookup. by rewrite (index_lookup_Some _ _ _ Hspec).
  - by apply DocumentPlugin_lookup_ne.
Qed.

(** C9.  [DocumentPlugin] on a tag without an entry creates one, with nil
    constructor and nil config factory; [PluginCount] then counts one more
    plugin and [GetDeprecatedPlugin] answers [true], with the conversion of
    the nil constructor. *)
Theorem DocumentPlugin_creates_entry tag d s (w : world)
    (Hnew : pluginSpecs w !! tag = None) :
  let w' := DocumentPlugin tag d s w in
  pluginSpecs w' !! tag =
    Some {| constructor := None; confConstructor := None;
            confSanitiser := s; description := d |}
  ∧ PluginCount w' = S (PluginCount w)
  ∧ GetDeprecatedPlugin tag w' = (ConstructorFunc None, true).
Proof.
  intros w'. unfold w'. split_and!.
  - rewrite DocumentPlugin_lookup. by rewrite (index_lookup_None _ _ Hnew).
  - unfold PluginCount, DocumentPlugin; simpl.
    by apply map_size_insert_None.
  - unfold GetDeprecatedPlugin. rewrite DocumentPlugin_lookup.
    by rewrite (index_lookup_None _ _ Hnew).
Qed.

(** [sort.Strings]: the result is ascending and a rearrangement of the
    input, and so does not depend on the order of the input. *)
Lemma sort_Strings_Sorted l : StronglySorted String.le (sort_Strings l).
Proof. apply StronglySorted_merge_sort; apply _. Qed.

Lemma sort_Strings_Permutation l : sort_Strings l ≡ₚ l.
Proof. apply merge_sort_Permutation. Qed.

Lemma sort_Strings_order l1 l2 : l1 ≡ₚ l2 → sort_Strings l1 = sort_Strings l2.
Proof.
  intros Hp. apply (StronglySorted_unique String.le).
  - apply sort_Strings_Sorted.
  - apply sort_Strings_Sorted.
  - by rewrite !sort_Strings_Permutation.
Qed.

Lemma StronglySorted_NoDup_strict (l : list string) :
  StronglySorted String.le l → NoDup l → Sorted (strict String.le) l.
Proof.
  induction 1 as [|x l Hl IH Hx]; intros Hnd; [constructor|].
  apply NoDup_cons in Hnd as [Hnotin Hnd].
  constructor; [by apply IH|].
  destruct l as [|y l]; constructor.
  apply Forall_cons in Hx as [Hxy _].
  split; [done|]. intros Hyx.
  apply Hnotin. rewrite (anti_symm String.le x y Hxy Hyx). by left.
Qed.

Lemma rangeKeys_NoDup (w : world) : NoDup (rangeKeys w).
Proof. apply NoDup_fst_map_to_list. Qed.

Lemma elem_of_rangeKeys (w : world) name :
  name ∈ rangeKeys w ↔ is_Some (pluginSpecs w !! name).
Proof.
  unfold rangeKeys. rewrite list_elem_of_fmap. split.
  - intros [[k v] [-> Hin]]. apply elem_of_map_to_list in Hin. eauto.
  - intros [v Hv]. exists (name, v). split; [done|].
    by apply elem_of_map_to_list.
Qed.

Lemma pluginSection_separator (specs : gmap string pluginSpec) len i name :
  pluginSection specs len i name
  = pluginSection specs 1 0 name +:+ (if negb (i =? len - 1)%nat then nl else "").
Proof.
  unfold pluginSection. simpl.
  rewrite !StringFacts.app_assoc. reflexivity.
Qed.

Lemma sections_from (specs : gmap string pluginSpec) len names k :
  k + length names = len →
  foldr String.app ""
    (imap (λ i, pluginSection specs len (k + i)) names)
  = String.concat nl (pluginSection specs 1 0 <$> names).
Proof.
  revert k. induction names as [|x names IH]; intros k Hlen; [done|].
  rewrite imap_cons. simpl foldr. rewrite pluginSection_separator.
  rewrite (imap_ext _ (λ i, pluginSection specs len (S k + i)))
    by (intros; simpl; f_equal; lia).
  rewrite IH by (simpl in *; lia).
  destruct names as [|y names]; simpl in *.
  - replace (k + 0 =? len - 1)%nat with true
      by (symmetry; apply Nat.eqb_eq; lia).
    simpl. by rewrite !StringFacts.app_empty_r.
  - replace (k + 0 =? len - 1)%nat with false
      by (symmetry; apply Nat.eqb_neq; lia).
    simpl. by rewrite StringFacts.app_assoc.
Qed.

Lemma contents_from names k :
  foldr String.app "" (imap (λ i, contentsLine (k + i)) names)
  = numberedLines (k + 1) names.
Proof.
  revert k. induction names as [|x names IH]; intros k; [done|].
  rewrite imap_cons. simpl foldr.
  rewrite (imap_ext _ (λ i, contentsLine (S k + i)))
    by (intros; simpl; f_equal; lia).
  rewrite IH. unfold contentsLine. simpl numberedLines.
  rewrite Nat.add_0_r. by rewrite !StringFacts.app_assoc.
Qed.

Lemma pluginSection_heading (specs : gmap string pluginSpec) len i name :
  ∃ body, pluginSection specs len i name
          = "## `" +:+ name +:+ "`" +:+ nl +:+ body.
Proof.
  unfold pluginSection. eexists. rewrite !StringFacts.app_assoc. reflexivity.
Qed.

(** The document, as a reader sees it. *)
Lemma PluginDescriptions_range_reads (w : world) (order : list string) :
  let names := sort_Strings order in
  PluginDescriptions_range order w
  = preamble
    +:+ numberedLines 1 names
    +:+ (if (length names =? 0)%nat
         then "There are no plugins loaded." else nl)
    +:+ String.concat nl (pluginSection (pluginSpecs w) 1 0 <$> names).
Proof.
  intros names. unfold PluginDescriptions_range, writeAll. fold names.
  rewrite <-(sections_from (pluginSpecs w) (length names) names 0) by done.
  change (numberedLines 1 names) with (numberedLines (0 + 1) names).
  by rewrite <-(contents_from names 0).
Qed.

(** C10.  Whatever the order in which the range loop visits the keys of the
    map, the names that [PluginDescriptions] writes are the keys of the
    registry in strictly ascending order.  The document is the heading, then
    one numbered contents line per name in that order, then one section per
    name in that order, each under the heading of its name.  The document is
    the same for every visiting order, and the same for two registries with
    the same entries. *)
Theorem PluginDescriptions_sorted (w : world) (order : list string)
    (Horder : order ≡ₚ rangeKeys w) :
  let names := sort_Strings order in
  Sorted (strict String.le) names
  ∧ (∀ name, name ∈ names ↔ is_Some (pluginSpecs w !! name))
  ∧ PluginDescriptions_range order w =
      preamble
      +:+ numberedLines 1 names
      +:+ (if (length names =? 0)%nat
           then "There are no plugins loaded." else nl)
      +:+ String.concat nl (pluginSection (pluginSpecs w) 1 0 <$> names)
  ∧ (∀ name, ∃ body,
       pluginSection (pluginSpecs w) 1 0 name
       = "## `" +:+ name +:+ "`" +:+ nl +:+ body)
  ∧ PluginDescriptions_range order w = PluginDescriptions w
  ∧ (∀ (w' : world) order',
       pluginSpecs w' = pluginSpecs w → order' ≡ₚ rangeKeys w' →
       PluginDescriptions_range order' w' = PluginDescriptions_range order w).
Proof.
  intros names. subst names. split_and!.
  - apply StronglySorted_NoDup_strict; [apply sort_Strings_Sorted|].
    rewrite sort_Strings_Permutation, Horder. apply rangeKeys_NoDup.
  - intros name. rewrite sort_Strings_Permutation, Horder.
    apply elem_of_rangeKeys.
  - apply PluginDescriptions_range_reads.
  - intros name. apply pluginSection_heading.
  - unfold PluginDescriptions, PluginDescriptions_range.
    by rewrite (sort_Strings_order _ _ Horder).
  - intros w' order' Hw Ho'. unfold PluginDescriptions_range.
    rewrite Hw. rewrite (sort_Strings_order order' order); [done|].
    rewrite Ho', Horder. unfold rangeKeys. by rewrite Hw.
Qed.

End facts.

(** The theorems above at a concrete registry. *)
Section instances.
Import Sample.

Lemma GetDeprecatedPlugin_found_iff_witness :
  GetDeprecatedPlugin "foo" documented = (None, true)
  ∧ GetDeprecatedPlugin "bar" documented = (None, false).
Proof.
  destruct (GetDeprecatedPlugin_found_iff "foo" documented) as [Hfound _].
  destruct (GetDeprecatedPlugin_found_iff "bar" documented) as (_ & Hmiss & _).
  split.
  - exact (Hfound _ eq_refl).
  - exact (Hmiss eq_refl).
Defined.

Lemma Register_Document_frame_witness :
  pluginSpecs (reg "foo" (Some "cfg") "ctor" documented) !! "foo"
  = Some (spec (Some "ctor") (Some "cfg") (Some "trim") "Writes to foo.")
  ∧ pluginSpecs (doc "foo" "Other." None documented) !! "foo"
    = Some (spec None None None "Other.").
Proof.
  destruct (Register_Document_frame (EX := sampleExternals) "foo" _ documented
              eq_refl) as [Hreg Hdoc].
  split.
  - exact (proj1 (Hreg (Some "cfg") "ctor")).
  - exact (proj1 (Hdoc "Other." None)).
Defined.

Lemma DocumentPlugin_creates_entry_witness :
  PluginCount documented = 1
  ∧ GetDeprecatedPlugin "foo" documented = (None, true).
Proof.
  destruct (DocumentPlugin_creates_entry (FT := sampleTypes) "foo"
              "Writes to foo." (Some "trim") emptyWorld eq_refl)
    as (_ & Hcount & Hget).
  split; [exact Hcount|exact Hget].
Defined.

Lemma PluginDescriptions_sorted_witness :
  sort_Strings ["zed"; "foo"; "bar"] = ["bar"; "foo"; "zed"]
  ∧ PluginDescriptions_range (EX := sampleExternals) ["zed"; "foo"; "bar"]
      threePlugins
    = PluginDescriptions (EX := sampleExternals) threePlugins.
Proof.
  assert (Hperm : ["zed"; "foo"; "bar"] ≡ₚ rangeKeys threePlugins).
  { vm_compute. apply perm_swap. }
  destruct (PluginDescriptions_sorted (EX := sampleExternals) threePlugins
              ["zed"; "foo"; "bar"] Hperm) as (_ & _ & _ & _ & Hsame & _).
  split; [reflexivity|exact Hsame].
Defined.
End instances.

End RegistryFacts.


(** * Properties of the configuration assembler *)

Module AssemblerFacts.
Import Assembler.
#[local] Set Warnings "-clear-no-such-hyp".

Import StringFacts.

(** ** Environment Interpolator *)

Section interpolator.
Variable overrides : gmap string string.

Lemma scan_plain text rest :
  noneOf (λ c, bool_decide (c = "$"%char)) text = true →
  scanFrom overrides InText (text +:+ rest)
  = text +:+ scanFrom overrides InText rest.
Proof.
  induction text as [|c text IH]; intros Hnone; [done|].
  simpl in Hnone. apply andb_true_iff in Hnone as [Hc Hnone].
  rewrite !app_cons. simpl.
  destruct (decide (c = "$"%char)) as [->|Hne]; [done|].
  by rewrite IH.
Qed.

Lemma scan_name acc name rest :
  allOf isNameChar name = true →
  scanFrom overrides (InName acc) (name +:+ rest)
  = scanFrom overrides (InName (acc +:+ name)) rest.
Proof.
  revert acc. induction name as [|c name IH]; intros acc Hall.
  - by rewrite app_empty_l, app_empty_r.
  - simpl in Hall. apply andb_true_iff in Hall as [Hc Hall].
    rewrite app_cons. simpl. rewrite Hc.
    rewrite IH by done. by rewrite app_snoc.
Qed.

Lemma scan_default name acc dflt rest :
  noneOf (λ c, bool_decide (c = "}"%char)) dflt = true →
  scanFrom overrides (InDefault name acc) (dflt +:+ rest)
  = scanFrom overrides (InDefault name (acc +:+ dflt)) rest.
Proof.
  revert acc. induction dflt as [|c dflt IH]; intros acc Hnone.
  - by rewrite app_empty_l, app_empty_r.
  - simpl in Hnone. apply andb_true_iff in Hnone as [Hc Hnone].
    rewrite app_cons. simpl.
    destruct (decide (c = "}"%char)) as [->|Hne]; [done|].
    rewrite IH by done. by rewrite app_snoc.
Qed.

(** One token at the head of the text is replaced by what the spec puts in
    its place, and the scan goes on in plain text. *)
Lemma scan_token t rest :
  wellFormed t = true →
  scanFrom overrides InText (written t +:+ rest)
  = substituted overrides t +:+ scanFrom overrides InText rest.
Proof.
  destruct t as [text|name dflt]; simpl; intros Hwf.
  - by apply scan_plain.
  - apply andb_true_iff in Hwf as [Hwf Hd].
    apply andb_true_iff in Hwf as [Hne Hname].
    apply bool_decide_eq_true in Hne.
    destruct dflt as [d|].
    + rewrite !app_assoc, !app_cons, !app_empty_l. simpl.
      rewrite scan_name by done. rewrite app_empty_l. simpl.
      destruct (decide (name = "")) as [?|_]; [done|].
      rewrite scan_default by done. rewrite app_empty_l.
      simpl. done.
    + rewrite !app_assoc, !app_cons, !app_empty_l. simpl.
      rewrite scan_name by done. rewrite app_empty_l. simpl.
      destruct (decide (name = "")) as [?|_]; [done|]. done.
Qed.

Lemma interpolate_tokens (tokens : list token) :
  Forall (λ t, wellFormed t = true) tokens →
  interpolate (concat (written <$> tokens)) overrides
  = concat (substituted overrides <$> tokens).
Proof.
  unfold interpolate. induction 1 as [|t tokens Ht _ IH]; [done|].
  rewrite !fmap_cons.
  change (scanFrom overrides InText
            (written t +:+ concat (written <$> tokens))
          = substituted overrides t
            +:+ concat (substituted overrides <$> tokens)).
  rewrite scan_token by done. by rewrite IH.
Qed.

(** *** The scanner against the replacement of the placeholders *)

Lemma noneOf_app p (s t : string) :
  noneOf p (s +:+ t) = noneOf p s && noneOf p t.
Proof.
  induction s as [|c s IH]; [done|]. rewrite app_cons. simpl.
  by rewrite IH, andb_assoc.
Qed.

Lemma spanName_spec s name after :
  spanName s = (name, after) →
  s = name +:+ after ∧ allOf isNameChar name = true
  ∧ match after with
    | "" => True
    | String c _ => isNameChar c = false
    end.
Proof.
  revert name after. induction s as [|c s IH]; intros name after; simpl.
  - by intros [= <- <-].
  - destruct (isNameChar c) eqn:Hc.
    + destruct (spanName s) as [name' after'] eqn:Hs. intros [= <- <-].
      destruct (IH _ _ eq_refl) as (-> & Hall & Hafter).
      split_and!; [done| |done]. simpl. by rewrite Hc.
    + intros [= <- <-]. by rewrite Hc.
Qed.

Lemma spanName_app name after :
  allOf isNameChar name = true →
  match after with
  | "" => True
  | String c _ => isNameChar c = false
  end →
  spanName (name +:+ after) = (name, after).
Proof.
  intros Hall Hafter. induction name as [|c name IH].
  - rewrite app_empty_l. destruct after as [|c after]; [done|].
    simpl. by rewrite Hafter.
  - simpl in Hall. apply andb_true_iff in Hall as [Hc Hall].
    rewrite app_cons. simpl. by rewrite Hc, IH.
Qed.

Lemma untilBrace_Some s d after :
  untilBrace s = Some (d, after) →
  s = d +:+ String "}" after
  ∧ noneOf (λ c, bool_decide (c = "}"%char)) d = true.
Proof.
  revert d. induction s as [|c s IH]; intros d; simpl; [done|].
  case_decide as Hc.
  - intros [= <- <-]. by subst c.
  - destruct (untilBrace s) as [[d' after']|]; [|done]. intros [= <- <-].
    destruct (IH _ eq_refl) as [-> Hnone]. split; [done|].
    simpl. by rewrite Hnone, bool_decide_eq_false_2.
Qed.

Lemma untilBrace_None s :
  untilBrace s = None → noneOf (λ c, bool_decide (c = "}"%char)) s = true.
Proof.
  induction s as [|c s IH]; simpl; [done|].
  case_decide as Hc; [done|].
  destruct (untilBrace s) as [[d' after']|]; [done|]. intros _.
  by rewrite IH, bool_decide_eq_false_2.
Qed.

Lemma untilBrace_app d after :
  noneOf (λ c, bool_decide (c = "}"%char)) d = true →
  untilBrace (d +:+ String "}" after) = Some (d, after).
Proof.
  induction d as [|c d IH]; intros Hnone.
  - rewrite app_empty_l. reflexivity.
  - simpl in Hnone. apply andb_true_iff in Hnone as [Hc Hnone].
    apply negb_true_iff, bool_decide_eq_false in Hc.
    rewrite app_cons. simpl. by rewrite decide_False, IH.
Qed.

(** A placeholder is found at the head of a text exactly when the text
    starts with a written placeholder. *)
Lemma placeholderAt_spec s name dflt after :
  placeholderAt s = Some (name, dflt, after) →
  s = written (Placeholder name dflt) +:+ after
  ∧ wellFormed (Placeholder name dflt) = true.
Proof.
  unfold placeholderAt. destruct s as [|c1 [|c2 rest]]; [done..|].
  case_decide as Hc; [|done]. destruct Hc as [-> ->].
  destruct (spanName rest) as [name' after'] eqn:Hspan.
  apply spanName_spec in Hspan as (-> & Hall & Hafter).
  case_decide as Hname; [done|].
  destruct after' as [|c after']; [done|].
  case_decide as Hc.
  - intros [= <- <- <-]. subst c. simpl.
    rewrite Hall, bool_decide_eq_true_2 by done.
    split; [|done]. by rewrite !app_assoc.
  - case_decide as Hc'; [|done]. subst c.
    destruct (untilBrace after') as [[d after'']|] eqn:Hd; [|done].
    intros [= <- <- <-]. apply untilBrace_Some in Hd as [-> Hnone].
    simpl. rewrite Hall, Hnone, bool_decide_eq_true_2 by done.
    split; [|done]. by rewrite !app_assoc.
Qed.

Lemma placeholderAt_written name dflt after :
  wellFormed (Placeholder name dflt) = true →
  placeholderAt (written (Placeholder name dflt) +:+ after)
  = Some (name, dflt, after).
Proof.
  simpl. intros Hwf.
  apply andb_true_iff in Hwf as [Hwf Hd].
  apply andb_true_iff in Hwf as [Hne Hname].
  apply bool_decide_eq_true in Hne.
  destruct dflt as [d|].
  - rewrite !app_assoc, !app_cons, !app_empty_l. unfold placeholderAt.
    rewrite decide_True by done.
    rewrite spanName_app by done. rewrite decide_False by done.
    rewrite decide_False by done. rewrite decide_True by done.
    by rewrite untilBrace_app.
  - rewrite !app_assoc, !app_cons, !app_empty_l. unfold placeholderAt.
    rewrite decide_True by done.
    rewrite spanName_app by done. rewrite decide_False by done.
    by rewrite decide_True.
Qed.

Lemma placeholderAt_length s name dflt after :
  placeholderAt s = Some (name, dflt, after) →
  String.length after < String.length s.
Proof.
  intros [-> _]%placeholderAt_spec. rewrite string_length_app.
  destruct dflt; simpl; rewrite ?string_length_app; simpl; lia.
Qed.

Lemma placeholderAt_head c rest x :
  placeholderAt (String c rest) = Some x → c = "$"%char.
Proof.
  unfold placeholderAt. destruct rest as [|c2 rest]; [done|].
  case_decide as Hc; [|done]. by destruct Hc.
Qed.

Lemma placeholderAt_brace s x :
  placeholderAt s = Some x →
  noneOf (λ c, bool_decide (c = "}"%char)) s = false.
Proof.
  destruct x as [[name dflt] after]. intros [-> _]%placeholderAt_spec.
  rewrite noneOf_app. apply andb_false_iff. left.
  destruct dflt; simpl; rewrite !noneOf_app; simpl;
    rewrite ?andb_false_r; done.
Qed.

Lemma replaceFuel_enough f1 :
  ∀ f2 s, String.length s ≤ f1 → String.length s ≤ f2 →
    replaceFuel overrides f1 s = replaceFuel overrides f2 s.
Proof.
  induction f1 as [|f1 IH]; intros f2 s H1 H2.
  - destruct s; [|simpl in H1; lia]. by destruct f2.
  - destruct f2 as [|f2]; [destruct s; [done|simpl in H2; lia]|].
    destruct s as [|c rest]; [done|]. simpl in H1, H2.
    change (match placeholderAt (String c rest) with
            | Some (name, dflt, after) =>
                resolve overrides name dflt +:+ replaceFuel overrides f1 after
            | None => String c (replaceFuel overrides f1 rest)
            end
            = match placeholderAt (String c rest) with
              | Some (name, dflt, after) =>
                  resolve overrides name dflt +:+ replaceFuel overrides f2 after
              | None => String c (replaceFuel overrides f2 rest)
              end).
    destruct (placeholderAt (String c rest)) as [[[name dflt] after]|] eqn:Hp.
    + apply placeholderAt_length in Hp. simpl in Hp.
      by rewrite (IH f2 after) by lia.
    + by rewrite (IH f2 rest) by lia.
Qed.

Lemma replace_none c rest :
  placeholderAt (String c rest) = None →
  replacePlaceholders (String c rest) overrides
  = String c (replacePlaceholders rest overrides).
Proof.
  intros Hp. unfold replacePlaceholders.
  change (match placeholderAt (String c rest) with
          | Some (name, dflt, after) =>
              resolve overrides name dflt
              +:+ replaceFuel overrides (String.length rest) after
          | None => String c (replaceFuel overrides (String.length rest) rest)
          end = String c (replaceFuel overrides (String.length rest) rest)).
  by rewrite Hp.
Qed.

Lemma replace_some s name dflt after :
  placeholderAt s = Some (name, dflt, after) →
  replacePlaceholders s overrides
  = resolve overrides name dflt +:+ replacePlaceholders after overrides.
Proof.
  intros Hp. pose proof (placeholderAt_length _ _ _ _ Hp) as Hlen.
  unfold replacePlaceholders. destruct s as [|c rest]; [done|].
  change (match placeholderAt (String c rest) with
          | Some (name, dflt, after) =>
              resolve overrides name dflt
              +:+ replaceFuel overrides (String.length rest) after
          | None => String c (replaceFuel overrides (String.length rest) rest)
          end = resolve overrides name dflt
                +:+ replaceFuel overrides (String.length after) after).
  rewrite Hp. simpl in Hlen.
  by rewrite (replaceFuel_enough _ (String.length after) after) by lia.
Qed.

Lemma replace_plain text tail :
  noneOf (λ c, bool_decide (c = "$"%char)) text = true →
  replacePlaceholders (text +:+ tail) overrides
  = text +:+ replacePlaceholders tail overrides.
Proof.
  induction text as [|c text IH]; intros Hnone; [done|].
  simpl in Hnone. apply andb_true_iff in Hnone as [Hc Hnone].
  apply negb_true_iff, bool_decide_eq_false in Hc.
  rewrite !app_cons. rewrite replace_none, IH; [done..|].
  destruct (placeholderAt (String c (text +:+ tail))) eqn:Hp; [|done].
  by apply placeholderAt_head in Hp.
Qed.

Lemma replace_no_brace s :
  noneOf (λ c, bool_decide (c = "}"%char)) s = true →
  replacePlaceholders s overrides = s.
Proof.
  induction s as [|c s IH]; intros Hnone; [done|].
  rewrite replace_none.
  - simpl in Hnone. apply andb_true_iff in Hnone as [_ Hnone].
    by rewrite IH.
  - destruct (placeholderAt (String c s)) eqn:Hp; [|done].
    apply placeholderAt_brace in Hp. congruence.
Qed.

Lemma name_no_dollar name :
  allOf isNameChar name = true →
  noneOf (λ c, bool_decide (c = "$"%char)) name = true.
Proof.
  induction name as [|c name IH]; simpl; [done|].
  intros [Hc Hall]%andb_true_iff. rewrite IH by done.
  rewrite andb_true_r. apply negb_true_iff, bool_decide_eq_false.
  by intros ->.
Qed.

Lemma scan_text_cons c rest :
  scanFrom overrides InText (String c rest)
  = if decide (c = "$"%char) then scanFrom overrides AfterDollar rest
    else String c (scanFrom overrides InText rest).
Proof. done. Qed.

Lemma scan_dollar_cons c rest :
  scanFrom overrides AfterDollar (String c rest)
  = if decide (c = "{"%char) then scanFrom overrides (InName "") rest
    else "$" +:+ scanFrom overrides InText (String c rest).
Proof. done. Qed.

Lemma scan_name_stop name c rest :
  isNameChar c = false →
  scanFrom overrides (InName name) (String c rest)
  = if decide (name = "")
    then pending (InName name) +:+ scanFrom overrides InText (String c rest)
    else if decide (c = "}"%char)
    then resolve overrides name None +:+ scanFrom overrides InText rest
    else if decide (c = ":"%char)
    then scanFrom overrides (InDefault name "") rest
    else pending (InName name) +:+ scanFrom overrides InText (String c rest).
Proof. intros Hc. simpl. by rewrite Hc. Qed.

(** What comes after ["${"] when no placeholder starts there: the text is
    kept and the reading goes on behind the run of name characters. *)
Lemma replace_no_placeholder rest name after :
  placeholderAt (String "$" (String "{" rest)) = None →
  rest = name +:+ after → allOf isNameChar name = true →
  replacePlaceholders (String "$" (String "{" rest)) overrides
  = "${" +:+ name +:+ replacePlaceholders after overrides.
Proof.
  intros Hp -> Hall. rewrite replace_none by done.
  change (String "{" (name +:+ after)) with (String "{" name +:+ after).
  rewrite (replace_plain (String "{" name) after).
  - by rewrite !app_cons, app_empty_l.
  - simpl. by rewrite name_no_dollar.
Qed.

Lemma scan_replace n :
  ∀ s, String.length s ≤ n →
    scanFrom overrides InText s = replacePlaceholders s overrides.
Proof.
  induction n as [|n IH]; intros s Hlen.
  { destruct s; [done|simpl in Hlen; lia]. }
  destruct s as [|c rest]; [done|]. simpl in Hlen.
  rewrite scan_text_cons. case_decide as Hc.
  2:{ rewrite replace_none, IH; [done|lia|].
      destruct (placeholderAt (String c rest)) eqn:Hp; [|done].
      by apply placeholderAt_head in Hp. }
  subst c. destruct rest as [|c2 rest2]; [done|]. simpl in Hlen.
  rewrite scan_dollar_cons. case_decide as Hc2.
  2:{ rewrite replace_none; [|unfold placeholderAt; rewrite decide_False;
                               [done|by intros [_ ?]]].
      rewrite IH by (simpl; lia). done. }
  subst c2.
  destruct (spanName rest2) as [name s2] eqn:Hspan.
  pose proof (spanName_spec _ _ _ Hspan) as (Hrest & Hall & Hstop).
  assert (Hlen2 : String.length s2 ≤ String.length rest2).
  { rewrite Hrest, string_length_app. lia. }
  assert (HM : scanFrom overrides (InName "") rest2
               = scanFrom overrides (InName name) s2).
  { rewrite Hrest at 1. by rewrite scan_name, app_empty_l. }
  assert (HP : placeholderAt (String "$" (String "{" rest2))
               = if decide (name = "") then None
                 else match s2 with
                      | String c after' =>
                          if decide (c = "}"%char) then Some (name, None, after')
                          else if decide (c = ":"%char)
                          then match untilBrace after' with
                               | Some (d, after'') =>
                                   Some (name, Some d, after'')
                               | None => None
                               end
                          else None
                      | "" => None
                      end).
  { unfold placeholderAt. rewrite decide_True by done. by rewrite Hspan. }
  rewrite HM. destruct s2 as [|c3 s3].
  - (* the text ends inside the name *)
    rewrite (replace_no_placeholder rest2 name "") by
      (try done; rewrite HP; by case_decide).
    change (replacePlaceholders "" overrides) with "".
    change (scanFrom overrides (InName name) "") with ("${" +:+ name).
    by rewrite app_empty_r.
  - rewrite scan_name_stop by done. simpl in Hlen2.
    case_decide as Hname.
    { rewrite (replace_no_placeholder rest2 name (String c3 s3)) by
        (try done; rewrite HP; by rewrite decide_True).
      rewrite IH by (simpl; lia).
      change (pending (InName name)) with ("${" +:+ name).
      by rewrite app_assoc. }
    case_decide as Hc3.
    { rewrite (replace_some _ _ _ _ HP). by rewrite IH by lia. }
    case_decide as Hc3'.
    2:{ rewrite (replace_no_placeholder rest2 name (String c3 s3)) by
          (try done; rewrite HP; by rewrite !decide_False).
        rewrite IH by (simpl; lia).
        change (pending (InName name)) with ("${" +:+ name).
        by rewrite app_assoc. }
    subst c3. destruct (untilBrace s3) as [[d after]|] eqn:Hd.
    + rewrite (replace_some _ _ _ _ HP).
      apply untilBrace_Some in Hd as [-> Hnone].
      rewrite scan_default, app_empty_l by done.
      rewrite string_length_app in Hlen2. simpl in Hlen2 |- *.
      rewrite ?decide_True by done. by rewrite IH by lia.
    + rewrite (replace_no_placeholder rest2 name (String ":" s3)) by
        (try done; rewrite HP; by rewrite decide_False, decide_True).
      apply untilBrace_None in Hd.
      rewrite (replace_no_brace (String ":" s3)) by (simpl; by rewrite Hd).
      rewrite <-(app_empty_r s3) at 1.
      rewrite scan_default, app_empty_l by done.
      change (scanFrom overrides (InDefault name s3) "")
        with ("${" +:+ name +:+ ":" +:+ s3).
      done.
Qed.

Lemma interpolate_replaces s :
  interpolate s overrides = replacePlaceholders s overrides.
Proof. by apply (scan_replace (String.length s)). Qed.

Lemma placeholderAt_iff s name dflt after :
  placeholderAt s = Some (name, dflt, after)
  ↔ s = written (Placeholder name dflt) +:+ after
    ∧ wellFormed (Placeholder name dflt) = true.
Proof.
  split; [apply placeholderAt_spec|]. intros [-> Hwf].
  by apply placeholderAt_written.
Qed.

End interpolator.

(** C1.  On every scalar string and every override mapping, interpolation
    reads the string from left to right: where a placeholder [${NAME}] or
    [${NAME:default}] starts, it writes the override of NAME if there is
    one (as it is, not interpolated again), else the default text if the
    placeholder has one, else the empty string, and goes on after the
    placeholder; any other character, a ["$"] that starts no placeholder
    included, is written as it is.  A placeholder starts at a position
    exactly when the text from there is [${NAME}] or [${NAME:default}] with
    a nonempty NAME of name characters and a default without ["}"].  So
    interpolation is the replacement of the placeholders from left to
    right, and a scalar written as a sequence of plain text and
    placeholders is interpolated token by token.  The three examples of the
    spec are instances, and so is a text with a ["$"] outside a
    placeholder. *)
Theorem interpolate_resolves :
  (∀ overrides tokens,
     Forall (λ t, wellFormed t = true) tokens →
     interpolate (concat (written <$> tokens)) overrides
     = concat (substituted overrides <$> tokens))
  ∧ (∀ (overrides : gmap string string) name dflt,
       substituted overrides (Placeholder name dflt)
       = match overrides !! name with
         | Some v => v
         | None => match dflt with Some d => d | None => "" end
         end)
  ∧ interpolate "${FOO:bar}" ∅ = "bar"
  ∧ interpolate "${FOO:bar}" {["FOO" := "baz"]} = "baz"
  ∧ interpolate "${FOO}" ∅ = ""
  ∧ (∀ overrides, interpolate "" overrides = "")
  ∧ (∀ (overrides : gmap string string) s name dflt after,
       placeholderAt s = Some (name, dflt, after) →
       interpolate s overrides
       = match overrides !! name with
         | Some v => v
         | None => match dflt with Some d => d | None => "" end
         end +:+ interpolate after overrides)
  ∧ (∀ overrides c rest,
       placeholderAt (String c rest) = None →
       interpolate (String c rest) overrides
       = String c (interpolate rest overrides))
  ∧ (∀ s name dflt after,
       placeholderAt s = Some (name, dflt, after)
       ↔ s = written (Placeholder name dflt) +:+ after
         ∧ wellFormed (Placeholder name dflt) = true)
  ∧ (∀ s overrides, interpolate s overrides = replacePlaceholders s overrides)
  ∧ interpolate "price: $5, host ${HOST:local}" ∅ = "price: $5, host local".
Proof.
  split_and!.
  - intros overrides tokens. apply interpolate_tokens.
  - done.
  - reflexivity.
  - reflexivity.
  - reflexivity.
  - done.
  - intros overrides s name dflt after Hp.
    rewrite !interpolate_replaces. by rewrite (replace_some _ _ _ _ _ Hp).
  - intros overrides c rest Hp.
    rewrite !interpolate_replaces. by rewrite replace_none.
  - apply placeholderAt_iff.
  - intros s overrides. apply interpolate_replaces.
  - reflexivity.
Qed.

(** Instances: two placeholders around plain text, the second one
    overridden by a text that itself looks like a placeholder; a ["$"] that
    starts no placeholder; a placeholder at the head of a text. *)
Lemma interpolate_resolves_witness :
  interpolate "${A:x} and ${B}" {["B" := "${A}"]} = "x and ${A}"
  ∧ interpolate "$5 ${A:x}" ∅ = String "$" (interpolate "5 ${A:x}" ∅)
  ∧ interpolate "${A:x}!" ∅ = "x" +:+ interpolate "!" ∅.
Proof.
  destruct interpolate_resolves
    as (Htokens & _ & _ & _ & _ & _ & Hsome & Hnone & _).
  split_and!.
  - exact (Htokens {["B" := "${A}"]}
             [Placeholder "A" (Some "x"); Plain " and "; Placeholder "B" None]
             ltac:(repeat constructor)).
  - exact (Hnone ∅ "$"%char "5 ${A:x}" eq_refl).
  - exact (Hsome ∅ "${A:x}!" "A" (Some "x") "!" eq_refl).
Defined.

(** ** Resource Merger *)

Section merger.
Context `{CO : Collaborators}.
Local Abbreviation error := (error Location Cause).
Local Abbreviation resourceSet := (gmap string (gmap string node)).

Lemma rsLookup_rsInsert (rs : resourceSet) c n v c' n' :
  rsLookup (rsInsert c n v rs) c' n'
  = if decide (c = c' ∧ n = n') then Some v else rsLookup rs c' n'.
Proof.
  unfold rsLookup, rsInsert.
  destruct (decide (c = c')) as [<-|Hc].
  - rewrite lookup_insert_eq. simpl.
    destruct (decide (n = n')) as [<-|Hn].
    + rewrite lookup_insert_eq. by rewrite decide_True.
    + rewrite lookup_insert_ne by done. rewrite decide_False by naive_solver.
      destruct (rs !! c); simpl; [done|]. by rewrite lookup_empty.
  - rewrite lookup_insert_ne by done. by rewrite decide_False by naive_solver.
Qed.

Lemma rsSize_rsInsert (rs : resourceSet) c n v :
  rsLookup rs c n = None → rsSize (rsInsert c n v rs) = S (rsSize rs).
Proof.
  unfold rsLookup, rsInsert, rsSize. intros Hnone.
  destruct (rs !! c) as [names|] eqn:Hc; simpl in *.
  - rewrite <-insert_delete_eq.
    rewrite map_to_list_insert by apply lookup_delete_eq.
    rewrite <-(map_to_list_delete rs c names Hc). simpl.
    by rewrite map_size_insert_None.
  - rewrite map_to_list_insert by done. simpl.
    by rewrite map_size_insert_None, map_size_empty by apply lookup_empty.
Qed.

Lemma elem_of_rsEntries (rs : resourceSet) c n v :
  (c, n, v) ∈ rsEntries rs ↔ rsLookup rs c n = Some v.
Proof.
  unfold rsEntries, rsLookup, categoryEntries. rewrite list_elem_of_bind. split.
  - intros [[c' names] [Hin Hrs]]. apply elem_of_map_to_list in Hrs.
    apply list_elem_of_fmap in Hin as [[n' v'] [Heq Hin]]. simplify_eq.
    apply elem_of_map_to_list in Hin. by rewrite Hrs.
  - destruct (rs !! c) as [names|] eqn:Hc; simpl; [|done]. intros Hn.
    exists (c, names). split; [|by apply elem_of_map_to_list].
    apply list_elem_of_fmap. exists (n, v). split; [done|].
    by apply elem_of_map_to_list.
Qed.

Lemma rsEntries_keys_NoDup (rs : resourceSet) : NoDup (rsEntries rs).*1.
Proof.
  unfold rsEntries.
  assert (Hkeys : ∀ l : list (string * gmap string node),
            (l ≫= λ '(c, names), categoryEntries c names).*1
            = l ≫= λ '(c, names), (λ n, (c, n)) <$> (map_to_list names).*1).
  { induction l as [|[c names] l IH]; [done|].
    rewrite !bind_cons, fmap_app, IH. f_equal.
    unfold categoryEntries. rewrite <-!list_fmap_compose.
    apply list_fmap_ext. by intros _ [n v] _. }
  rewrite Hkeys. apply NoDup_bind.
  - intros [c1 m1] [c2 m2] [c n] H1 H2 Hy1 Hy2.
    apply list_elem_of_fmap in Hy1 as [n1 [Heq1 _]].
    apply list_elem_of_fmap in Hy2 as [n2 [Heq2 _]]. simplify_eq.
    apply elem_of_map_to_list in H1, H2. congruence.
  - intros [c names] _. apply NoDup_fmap_2.
    + by intros n1 n2 [= ->].
    + apply NoDup_fst_map_to_list.
  - apply NoDup_map_to_list.
Qed.

Lemma rsEntries_length (rs : resourceSet) : length (rsEntries rs) = rsSize rs.
Proof.
  unfold rsEntries, rsSize.
  induction (map_to_list rs) as [|[c names] l IH]; [done|].
  rewrite bind_cons, length_app, IH. simpl. f_equal.
  unfold categoryEntries. by rewrite length_fmap, length_map_to_list.
Qed.

(** An extra document whose pairs are all new is added whole. *)
Lemma addEntries_fresh file entries (acc : resourceSet) :
  NoDup entries.*1 →
  (∀ c n, (c, n) ∈ entries.*1 → rsLookup acc c n = None) →
  ∃ acc', addEntries file entries acc = Ok acc'
    ∧ rsSize acc' = rsSize acc + length entries
    ∧ ∀ c n, rsLookup acc' c n = None
             ↔ rsLookup acc c n = None ∧ (c, n) ∉ entries.*1.
Proof.
  revert acc. induction entries as [|[[c n] v] entries IH]; intros acc Hnd Hfresh.
  - exists acc. split_and!; [done|simpl; lia|].
    intros c n. split; [|naive_solver]. intros Hn. split; [done|].
    by apply not_elem_of_nil.
  - simpl in *. apply NoDup_cons in Hnd as [Hnotin Hnd].
    rewrite (Hfresh c n) by (by left).
    destruct (IH (rsInsert c n v acc) Hnd) as (acc' & Hadd & Hsize & Hlook).
    { intros c' n' Hin. rewrite rsLookup_rsInsert.
      rewrite decide_False; [apply Hfresh; by right|].
      intros [-> ->]. done. }
    exists acc'. split_and!; [done| |].
    + rewrite Hsize, rsSize_rsInsert by (apply Hfresh; by left). lia.
    + intros c' n'. rewrite Hlook, rsLookup_rsInsert, not_elem_of_cons.
      destruct (decide (c = c' ∧ n = n')) as [[-> ->]|Hne]; naive_solver.
Qed.

(** An extra document fails on a pair that the accumulated set already has,
    and names that pair and its own file. *)
Lemma addEntries_collision file entries (acc : resourceSet) c n :
  NoDup entries.*1 →
  (c, n) ∈ entries.*1 → is_Some (rsLookup acc c n) →
  ∃ c' n', addEntries file entries acc = Err (ResourceCollision file c' n')
    ∧ (c', n') ∈ entries.*1 ∧ is_Some (rsLookup acc c' n').
Proof.
  revert acc. induction entries as [|[[c0 n0] v] entries IH];
    intros acc Hnd Hin Hsome.
  - by apply elem_of_nil in Hin.
  - simpl in *. apply NoDup_cons in Hnd as [Hnotin Hnd].
    destruct (rsLookup acc c0 n0) as [old|] eqn:Hold.
    + exists c0, n0. split_and!; [done|by left|]. rewrite Hold. eauto.
    + apply elem_of_cons in Hin as [[= -> ->]|Hin].
      { rewrite Hold in Hsome. by destruct Hsome. }
      destruct (IH (rsInsert c0 n0 v acc) Hnd Hin) as (c' & n' & Herr & Hk & Hs).
      { rewrite rsLookup_rsInsert. by case_decide. }
      exists c', n'. split_and!; [done|by right|].
      rewrite rsLookup_rsInsert in Hs. case_decide as Heq; [|done].
      destruct Heq as [-> ->]. done.
Qed.

Lemma merge_app (primary : resourceSet) before after :
  merge primary (before ++ after)
  = bind (merge primary before) (λ acc, merge acc after).
Proof.
  revert primary. induction before as [|[file rs] before IH]; intros primary;
    [done|].
  simpl. destruct (addEntries file (rsEntries rs) primary); simpl; [apply IH|done].
Qed.

Lemma elem_of_rsEntries_keys (rs : resourceSet) c n :
  (c, n) ∈ (rsEntries rs).*1 ↔ is_Some (rsLookup rs c n).
Proof.
  rewrite list_elem_of_fmap. split.
  - intros [[[c' n'] v] [[= -> ->] Hin]]. apply elem_of_rsEntries in Hin. eauto.
  - intros [v Hv]. exists (c, n, v). split; [done|]. by apply elem_of_rsEntries.
Qed.

Lemma rsDisjoint_spec (a b : resourceSet) :
  rsDisjoint a b = true
  ↔ ∀ c n, is_Some (rsLookup a c n) → rsLookup b c n = None.
Proof.
  unfold rsDisjoint. rewrite forallb_forall. split.
  - intros Hall c n [v Hv]. apply elem_of_rsEntries in Hv.
    apply list_elem_of_In, Hall in Hv. by destruct (rsLookup b c n).
  - intros Hdis [[c n] v] Hin%list_elem_of_In%elem_of_rsEntries.
    rewrite (Hdis c n); eauto.
Qed.

Lemma merge_disjoint (primary : resourceSet) extras :
  pairwiseDisjoint (primary :: extras.*2) = true →
  ∃ merged, merge primary extras = Ok merged
    ∧ rsSize merged = rsSize primary + sum_list (rsSize <$> extras.*2)
    ∧ ∀ c n, is_Some (rsLookup merged c n)
             ↔ is_Some (rsLookup primary c n)
               ∨ ∃ rs, rs ∈ extras.*2 ∧ is_Some (rsLookup rs c n).
Proof.
  revert primary. induction extras as [|[file rs] extras IH]; intros primary.
  - intros _. exists primary. split_and!; [done|simpl; lia|].
    intros c n. split; [by left|]. intros [?|(rs & Hin & _)]; [done|].
    by apply elem_of_nil in Hin.
  - simpl. intros Hdis.
    apply andb_true_iff in Hdis as [Hprim Hrest].
    apply andb_true_iff in Hprim as [Hprs Hprim].
    apply andb_true_iff in Hrest as [Hrs Hrest].
    rewrite rsDisjoint_spec in Hprs.
    rewrite forallb_forall in Hprim, Hrs.
    destruct (addEntries_fresh file (rsEntries rs) primary) as
      (acc & Hadd & Hsize & Hlook).
    { apply rsEntries_keys_NoDup. }
    { intros c n Hin%elem_of_rsEntries_keys.
      destruct (rsLookup primary c n) eqn:Hp; [|done].
      rewrite (Hprs c n) in Hin by eauto. by destruct Hin. }
    assert (Hacc : ∀ c n, is_Some (rsLookup acc c n)
                   ↔ is_Some (rsLookup primary c n) ∨ is_Some (rsLookup rs c n)).
    { intros c n. rewrite <-!not_eq_None_Some, Hlook, elem_of_rsEntries_keys.
      rewrite <-!not_eq_None_Some.
      destruct (rsLookup primary c n), (rsLookup rs c n); naive_solver. }
    destruct (IH acc) as (merged & Hmerge & Hmsize & Hmlook).
    { simpl. apply andb_true_iff. split; [|done].
      apply forallb_forall. intros r Hr. apply rsDisjoint_spec. intros c n.
      rewrite Hacc. intros [Hp|Hr'].
      - by apply (proj1 (rsDisjoint_spec _ _) (Hprim r Hr)).
      - by apply (proj1 (rsDisjoint_spec _ _) (Hrs r Hr)). }
    exists merged. rewrite Hadd. simpl. split; [exact Hmerge|split].
    + rewrite Hmsize, Hsize, rsEntries_length.
      rewrite <-Nat.add_assoc. reflexivity.
    + intros c n. rewrite Hmlook, Hacc. split.
      * intros [[?|?]|(r & Hr & ?)]; [by left| |].
        -- right. exists rs. split; [by left|done].
        -- right. exists r. split; [by right|done].
      * intros [?|(r & [->|Hr]%elem_of_cons & ?)]; [by left; left| |].
        -- by left; right.
        -- right. by exists r.
Qed.

(** C2.  When the (category, name) pairs of the primary set and of the extra
    documents are pairwise disjoint, the merge succeeds and has as many pairs
    as its inputs together.  When an extra document has a pair that the set
    accumulated from the primary and the extras before it already has, the
    merge fails with a collision that names the file of that extra document
    (the later one; with distinct paths, none of the files before it) and a
    pair that both have — the pair, when there is only one.  A failed merge
    is an error and yields no set. *)
Theorem merge_sum_or_collision (primary : resourceSet)
    (extras : list (string * resourceSet)) :
  (pairwiseDisjoint (primary :: extras.*2) = true →
   ∃ merged, merge primary extras = Ok merged
     ∧ rsSize merged = rsSize primary + sum_list (rsSize <$> extras.*2))
  ∧ (∀ before file rs after acc c n,
       extras = before ++ (file, rs) :: after →
       merge primary before = Ok acc →
       is_Some (rsLookup rs c n) → is_Some (rsLookup acc c n) →
       ∃ c' n',
         merge primary extras = Err (ResourceCollision file c' n')
         ∧ is_Some (rsLookup rs c' n') ∧ is_Some (rsLookup acc c' n')
         ∧ (NoDup extras.*1 → file ∉ before.*1)
         ∧ ((∀ c0 n0, is_Some (rsLookup rs c0 n0) →
                      is_Some (rsLookup acc c0 n0) → c0 = c ∧ n0 = n) →
            c' = c ∧ n' = n)).
Proof.
  split.
  - intros Hdis. destruct (merge_disjoint primary extras Hdis)
      as (merged & Hmerge & Hsize & _). eauto.
  - intros before file rs after acc c n -> Hbefore Hrs Hacc.
    destruct (addEntries_collision file (rsEntries rs) acc c n)
      as (c' & n' & Herr & Hkey & Hsome).
    { apply rsEntries_keys_NoDup. }
    { by apply elem_of_rsEntries_keys. }
    { done. }
    apply elem_of_rsEntries_keys in Hkey.
    exists c', n'. split_and!.
    + rewrite merge_app, Hbefore. simpl. by rewrite Herr.
    + done.
    + done.
    + rewrite fmap_app, fmap_cons. simpl. intros Hnd Hin.
      apply NoDup_app in Hnd as (_ & Hnd & _).
      apply (Hnd file Hin). by left.
    + intros Honly. by apply Honly.
Qed.

End merger.

(** ** Reference Expander *)

Section expander.
Context `{CO : Collaborators}.
Local Abbreviation error := (error Location Cause).
Local Abbreviation outcome := (option (result error node)).
Variable fs : gmap string string.

(** *** The walk over the children *)





(** *** More depth changes no outcome *)






(** *** What a reference names *)












(** *** The references of a tree *)










(** *** What the expander returns is the inlined tree *)



(** *** Chains within a depth: the expander returns *)













(** *** Documents without references, and a document that refers to one *)









(** *** The first reference of a tree *)





(** *** Chains that come back to a reference in progress *)


(** *** A reference on a chain that comes back never gives a tree *)








End expander.

(** ** Pipeline Assembler *)

Section provide.
Context `{CO : Collaborators}.
Local Abbreviation error := (error Location Cause).

(** The navigator fails with [PathNotFound] and nothing else. *)
Lemma navigateFrom_error position (n : node) pointer (e : error) :
  navigateFrom position n pointer = Err e →
  ∃ cause segment p, e = PathNotFound cause segment p.
Proof.
  revert position n. induction pointer as [|seg rest IH]; intros position n;
    [done|].
  simpl. destruct n as [s|items|fields].
  - intros [= <-]. eauto.
  - destruct (parseIndex seg) as [i|]; [|intros [= <-]; eauto].
    destruct (items !! i) as [v|]; [apply IH|intros [= <-]; eauto].
  - destruct (field seg fields) as [v|]; [apply IH|intros [= <-]; eauto].
Qed.

Lemma constructFrom_app (env : environment) ctx i before rest :
  constructFrom env ctx i (before ++ rest)
  = bind (constructFrom env ctx i before) (λ s1,
      bind (constructFrom env ctx (i + length before) rest) (λ s2,
        Ok (s1 ++ s2))).
Proof.
  revert i. induction before as [|entry before IH]; intros i; simpl.
  - rewrite Nat.add_0_r. by destruct (constructFrom env ctx i rest).
  - destruct (constructStage env ctx i entry) as [stage|e]; simpl; [|done].
    rewrite IH. replace (S i + length before) with (i + S (length before)) by lia.
    destruct (constructFrom env ctx (S i) before) as [s1|e]; simpl; [|done].
    by destruct (constructFrom env ctx (i + S (length before)) rest).
Qed.

(** A stage entry whose tag is in neither registry is an unknown type. *)
Lemma constructStage_unknown (env : environment) ctx i t raw :
  registry env !! t = None → deprecated env !! t = None →
  constructStage env ctx i (Map [(t, raw)]) = Err (UnknownType t).
Proof.
  intros Hreg Hdep. unfold constructStage, lookup, deprecatedLookup. simpl.
  by rewrite Hreg, Hdep.
Qed.

(** C3.  [Provide] fails
    - with [FileNotFound] when the primary path names no file;
    - with [ParseError] when the content of the primary file does not parse;
    - with [PathNotFound] when the documents resolve and the sub-path leads
      nowhere in the resolved tree;
    - with [UnknownType] when the entries before it assemble and a stage
      entry has a tag that neither registry knows.
    In each case the result is the error alone: no stage list comes with
    it. *)
Theorem Provide_errors (env : environment) (fuel : nat) (req : PipelineRequest) :
  (files env !! canonical (primaryPath req) = None →
   Provide env fuel req = Some (Err (FileNotFound (primaryPath req))))
  ∧ (∀ bytes location,
       files env !! canonical (primaryPath req) = Some bytes →
       parseDocument bytes = Err location →
       Provide env fuel req
       = Some (Err (ParseError (primaryPath req) location)))
  ∧ (∀ tree resources e,
       resolveDocument (files env) fuel (envOverrides req) (primaryPath req)
       = Some (Ok tree) →
       resolveResources (files env) fuel (envOverrides req) tree
         (extraResourcePaths req) = Some (Ok resources) →
       navigate tree (parsePointer (subPath req)) = Err e →
       Provide env fuel req = Some (Err e)
       ∧ ∃ cause segment position, e = PathNotFound cause segment position)
  ∧ (∀ tree resources n before t raw after stages,
       resolveDocument (files env) fuel (envOverrides req) (primaryPath req)
       = Some (Ok tree) →
       resolveResources (files env) fuel (envOverrides req) tree
         (extraResourcePaths req) = Some (Ok resources) →
       navigate tree (parsePointer (subPath req)) = Ok n →
       stageEntries n = before ++ Map [(t, raw)] :: after →
       constructFrom env {| handles := resources; shared := deps env |} 0 before
       = Ok stages →
       registry env !! t = None → deprecated env !! t = None →
       Provide env fuel req = Some (Err (UnknownType t))).
Proof.
  unfold Provide. split_and!.
  - intros Hnone. unfold resolveDocument, load. by rewrite Hnone.
  - intros bytes location Hbytes Hparse. unfold resolveDocument, load.
    by rewrite Hbytes, Hparse.
  - intros tree resources e Hdoc Hres Hnav.
    rewrite Hdoc. simpl. rewrite Hres. simpl. rewrite Hnav. simpl.
    split; [done|]. by eapply navigateFrom_error.
  - intros tree resources n before t raw after stages Hdoc Hres Hnav Hentries
      Hbefore Hreg Hdep.
    rewrite Hdoc. simpl. rewrite Hres. simpl. rewrite Hnav. simpl.
    rewrite Hentries, constructFrom_app, Hbefore.
    simpl. by rewrite constructStage_unknown.
Qed.



End provide.



(** ** The theorems above on the documents of the test file *)

Import Sample.
Local Abbreviation path f := (dir +:+ f).

Lemma merge_sum_or_collision_witness :
  (∃ merged,
     merge (CO := sampleCollaborators) (resourcesOf config1)
       [(path "resources1.yaml", resourcesOf resources1);
        (path "resources2.yaml", resourcesOf resources2)] = Ok merged
     ∧ rsSize merged = 3)
  ∧ (∃ c n,
       merge (CO := sampleCollaborators) (resourcesOf config1)
         [(path "resources1.yaml", resourcesOf resources1);
          (path "resources2.yaml", resourcesOf resources1)]
       = Err (ResourceCollision (path "resources2.yaml") c n)).
Proof.
  split.
  - destruct (merge_sum_or_collision (CO := sampleCollaborators)
                (resourcesOf config1)
                [(path "resources1.yaml", resourcesOf resources1);
                 (path "resources2.yaml", resourcesOf resources2)])
      as [Hsum _].
    destruct (Hsum eq_refl) as (merged & Hmerge & Hsize).
    exists merged. split; [exact Hmerge|exact Hsize].
  - destruct (merge_sum_or_collision (CO := sampleCollaborators)
                (resourcesOf config1)
                [(path "resources1.yaml", resourcesOf resources1);
                 (path "resources2.yaml", resourcesOf resources1)])
      as [_ Hcollision].
    destruct (Hcollision [(path "resources1.yaml", resourcesOf resources1)]
                (path "resources2.yaml") (resourcesOf resources1) []
                _ "caches" "barcache" eq_refl eq_refl
                (ex_intro _ memoryCache eq_refl)
                (ex_intro _ memoryCache eq_refl))
      as (c & n & Herr & _).
    exists c, n. exact Herr.
Defined.

Lemma Provide_errors_witness :
  Provide sampleEnv 3 (request "doesnotexist.yaml" "/pipeline/processors" ∅ [])
  = Some (Err (FileNotFound (path "doesnotexist.yaml")))
  ∧ Provide sampleEnv 3 (request "broken.yaml" "/pipeline/processors" ∅ [])
    = Some (Err (ParseError (path "broken.yaml") 2))
  ∧ Provide sampleEnv 3 (request "config1.yaml" "/not/a/valid/path" ∅ [])
    = Some (Err (PathNotFound MissingKey "not" 0))
  ∧ Provide sampleEnv 3 (request "config3.yaml" "/pipeline/processors" ∅ [])
    = Some (Err (UnknownType "type")).
Proof.
  split_and!.
  - destruct (Provide_errors sampleEnv 3
                (request "doesnotexist.yaml" "/pipeline/processors" ∅ []))
      as [Hmissing _].
    exact (Hmissing eq_refl).
  - destruct (Provide_errors sampleEnv 3
                (request "broken.yaml" "/pipeline/processors" ∅ []))
      as (_ & Hparse & _).
    exact (Hparse "this isnt valid yaml" 2 eq_refl eq_refl).
  - destruct (Provide_errors sampleEnv 3
                (request "config1.yaml" "/not/a/valid/path" ∅ []))
      as (_ & _ & Hpath & _).
    eapply Hpath; vm_compute; reflexivity.
  - destruct (Provide_errors sampleEnv 3
                (request "config3.yaml" "/pipeline/processors" ∅ []))
      as (_ & _ & _ & Hunknown).
    eapply (Hunknown _ _ _ [] "type" (Scalar "doesnotexist") []);
      vm_compute; reflexivity.
Defined.


(** The runs of the test file. *)

Example provide_defaults :
  ∃ s2 s3 s4,
    Provide sampleEnv 2 (request "config1.yaml" "/pipeline/processors" ∅ [])
    = Some (Ok [("metadata", Map [("operator", Scalar "set");
                                  ("key", Scalar "foo");
                                  ("value", Scalar "defaultvalue")]);
                s2; s3; s4]).
Proof. eexists _, _, _. vm_compute. reflexivity. Qed.

Example provide_overridden :
  ∃ s2 s3 s4,
    Provide sampleEnv 2
      (request "config1.yaml" "/pipeline/processors"
         {["FOO_VAR" := "newvalue"]} [])
    = Some (Ok [("metadata", Map [("operator", Scalar "set");
                                  ("key", Scalar "foo");
                                  ("value", Scalar "newvalue")]);
                s2; s3; s4]).
Proof. eexists _, _, _. vm_compute. reflexivity. Qed.

Example provide_one_stage :
  Provide sampleEnv 2 (request "config2.yaml" "/pipeline/processors/3" ∅ [])
  = Some (Ok [("text", Map [("operator", Scalar "to_upper")])]).
Proof. vm_compute. reflexivity. Qed.

Example provide_extra_resources :
  Provide sampleEnv 2
    (request "config4.yaml" "/pipeline/processors" ∅
       ["resources1.yaml"; "resources2.yaml"])
  = Some (Ok [("cache", cacheConfig "foocache" "foo");
              ("cache", cacheConfig "barcache" "bar");
              ("cache", cacheConfig "bazcache" "bar")])
  ∧ Provide sampleEnv 2 (request "config4.yaml" "/pipeline/processors" ∅ [])
    = Some (Err (StageConstructionError 1 "cache" "cache not found: barcache")).
Proof. split; vm_compute; reflexivity. Qed.

Example provide_resource_collision :
  Provide sampleEnv 2
    (request "config4.yaml" "/pipeline/processors" ∅
       ["resources1.yaml"; "resources3.yaml"])
  = Some (Err (ResourceCollision (path "resources3.yaml") "caches" "barcache")).
Proof. vm_compute. reflexivity. Qed.

Example provide_reference_cycle :
  Provide sampleEnv 5 (request "loop1.yaml" "/pipeline" ∅ [])
  = Some (Err (ReferenceCycle (path "loop2.yaml") ["pipeline"])).
Proof. vm_compute. reflexivity. Qed.

End AssemblerFacts.

(** * More properties of the plugin registry *)

Module RegistryMore.
Import Registry RegistryFacts.

Section more.
Context `{EX : Externals}.

Lemma RegisterPlugin_lookup_any tag cf c (w : world) k :
  pluginSpecs (RegisterPlugin tag cf c w) !! k =
    if decide (k = tag)
    then Some {| constructor := fromSimpleConstructor (pluginClosure c);
                 confConstructor := cf;
                 confSanitiser := confSanitiser (index (pluginSpecs w) tag);
                 description := description (index (pluginSpecs w) tag) |}
    else pluginSpecs w !! k.
Proof.
  case_decide as Hk.
  - subst k. apply RegisterPlugin_lookup.
  - by apply RegisterPlugin_lookup_ne.
Qed.

Lemma DocumentPlugin_lookup_any tag d s (w : world) k :
  pluginSpecs (DocumentPlugin tag d s w) !! k =
    if decide (k = tag)
    then Some {| constructor := constructor (index (pluginSpecs w) tag);
                 confConstructor := confConstructor (index (pluginSpecs w) tag);
                 confSanitiser := s;
                 description := d |}
    else pluginSpecs w !! k.
Proof.
  case_decide as Hk.
  - subst k. apply DocumentPlugin_lookup.
  - by apply DocumentPlugin_lookup_ne.
Qed.

Lemma world_eq (w1 w2 : world) :
  pluginSpecs w1 = pluginSpecs w2 → interop w1 = interop w2 → w1 = w2.
Proof. destruct w1, w2; simpl; by intros -> ->. Qed.

(** X1.  Either call adds exactly one entry when its tag has none, and no
    entry when it has one: [PluginCount] grows by one or stays. *)
Theorem PluginCount_after_call tag cf c d s (w : world) :
  PluginCount (RegisterPlugin tag cf c w)
  = match pluginSpecs w !! tag with
    | Some _ => PluginCount w
    | None => S (PluginCount w)
    end
  ∧ PluginCount (DocumentPlugin tag d s w)
    = match pluginSpecs w !! tag with
      | Some _ => PluginCount w
      | None => S (PluginCount w)
      end.
Proof.
  unfold PluginCount, RegisterPlugin, DocumentPlugin; simpl.
  destruct (pluginSpecs w !! tag) as [spec|] eqn:Htag.
  - by rewrite !map_size_insert_Some by eauto.
  - by rewrite !map_size_insert_None by done.
Qed.

(** X2.  Registering and documenting commute, for the same tag as for two
    different ones: the state after [RegisterPlugin] then [DocumentPlugin] is
    the state after [DocumentPlugin] then [RegisterPlugin]. *)
Theorem Register_Document_commute tag cf c tag' d s (w : world) :
  DocumentPlugin tag' d s (RegisterPlugin tag cf c w)
  = RegisterPlugin tag cf c (DocumentPlugin tag' d s w).
Proof.
  apply world_eq; [|done].
  apply map_eq. intros k.
  rewrite DocumentPlugin_lookup_any, !RegisterPlugin_lookup_any,
    DocumentPlugin_lookup_any.
  unfold index.
  rewrite RegisterPlugin_lookup_any, DocumentPlugin_lookup_any.
  repeat case_decide; simplify_eq; done.
Qed.

(** X3.  Registrations under two different tags commute in the registry, so
    the document of [PluginDescriptions] does not depend on which of the two
    came first. *)
Theorem Register_commute tag1 cf1 c1 tag2 cf2 c2 (w : world)
    (Hne : tag1 ≠ tag2) :
  let w12 := RegisterPlugin tag2 cf2 c2 (RegisterPlugin tag1 cf1 c1 w) in
  let w21 := RegisterPlugin tag1 cf1 c1 (RegisterPlugin tag2 cf2 c2 w) in
  pluginSpecs w12 = pluginSpecs w21
  ∧ ∀ order12 order21,
      order12 ≡ₚ rangeKeys w12 → order21 ≡ₚ rangeKeys w21 →
      PluginDescriptions_range order12 w12
      = PluginDescriptions_range order21 w21.
Proof.
  intros w12 w21.
  assert (Hspecs : pluginSpecs w12 = pluginSpecs w21).
  { subst w12 w21. apply map_eq. intros k.
    rewrite !RegisterPlugin_lookup_any. unfold index.
    rewrite !RegisterPlugin_lookup_any.
    repeat case_decide; simplify_eq; done. }
  split; [done|]. intros order12 order21 H12 H21.
  unfold PluginDescriptions_range. rewrite Hspecs.
  rewrite (sort_Strings_order order12 order21); [done|].
  rewrite H12, H21. unfold rangeKeys. by rewrite Hspecs.
Qed.

(** X4.  A repeated call under one tag overwrites the earlier one: after two
    [DocumentPlugin] calls the state is that after the second alone, and
    after two [RegisterPlugin] calls the registry is that after the second
    alone. *)
Theorem repeated_call_overwrites tag d1 s1 d2 s2 cf1 c1 cf2 c2 (w : world) :
  DocumentPlugin tag d2 s2 (DocumentPlugin tag d1 s1 w)
  = DocumentPlugin tag d2 s2 w
  ∧ pluginSpecs (RegisterPlugin tag cf2 c2 (RegisterPlugin tag cf1 c1 w))
    = pluginSpecs (RegisterPlugin tag cf2 c2 w).
Proof.
  split.
  - apply world_eq; [|done]. apply map_eq. intros k.
    rewrite !DocumentPlugin_lookup_any. unfold index.
    rewrite DocumentPlugin_lookup_any.
    repeat case_decide; simplify_eq; done.
  - apply map_eq. intros k.
    rewrite !RegisterPlugin_lookup_any. unfold index.
    rewrite RegisterPlugin_lookup_any.
    repeat case_decide; simplify_eq; done.
Qed.

(** X5.  [DocumentPlugin] never changes the constructor that
    [GetDeprecatedPlugin] returns, for any name; the found flag changes for
    its own tag only, and only from [false] to [true]. *)
Theorem DocumentPlugin_keeps_constructors tag d s (w : world) name :
  (GetDeprecatedPlugin name (DocumentPlugin tag d s w)).1
  = (GetDeprecatedPlugin name w).1
  ∧ (name ≠ tag →
     GetDeprecatedPlugin name (DocumentPlugin tag d s w)
     = GetDeprecatedPlugin name w)
  ∧ ((GetDeprecatedPlugin name w).2 = true →
     (GetDeprecatedPlugin name (DocumentPlugin tag d s w)).2 = true).
Proof.
  unfold GetDeprecatedPlugin. rewrite DocumentPlugin_lookup_any. unfold index.
  case_decide as Hk.
  - subst name. destruct (pluginSpecs w !! tag); simpl; done.
  - destruct (pluginSpecs w !! name); simpl; done.
Qed.

(** X6.  On a registry without entries [PluginDescriptions] writes the
    heading, the header and the sentence that no plugins are loaded, and
    nothing else. *)
Theorem PluginDescriptions_empty (w : world) (Hempty : PluginCount w = 0) :
  PluginDescriptions w = preamble +:+ "There are no plugins loaded.".
Proof.
  unfold PluginCount in Hempty. apply map_size_empty_inv in Hempty.
  unfold PluginDescriptions, PluginDescriptions_range, rangeKeys.
  rewrite Hempty, map_to_list_empty. reflexivity.
Qed.

(** X7.  [PluginDescriptions] writes exactly as many contents lines and as
    many sections as [PluginCount] counts plugins, one of each for every
    registered name and none twice, and writes the sentence that no plugins
    are loaded exactly when the count is zero. *)
Theorem PluginDescriptions_counts (w : world) (order : list string)
    (Horder : order ≡ₚ rangeKeys w) :
  ∃ names lines sections : list string,
    NoDup names
    ∧ (∀ name, name ∈ names ↔ is_Some (pluginSpecs w !! name))
    ∧ lines = imap (λ i name, pretty (i + 1)%nat +:+ ". [`" +:+ name
                              +:+ "`](#" +:+ name +:+ ")" +:+ nl) names
    ∧ sections = pluginSection (pluginSpecs w) 1 0 <$> names
    ∧ length lines = PluginCount w
    ∧ length sections = PluginCount w
    ∧ PluginDescriptions_range order w
      = preamble
        +:+ String.concat "" lines
        +:+ (if (PluginCount w =? 0)%nat
             then "There are no plugins loaded." else nl)
        +:+ String.concat nl sections.
Proof.
  set (names := sort_Strings order).
  assert (Hlen : length names = PluginCount w).
  { subst names. rewrite sort_Strings_Permutation, Horder.
    unfold rangeKeys, PluginCount.
    by rewrite length_fmap, length_map_to_list. }
  exists names. eexists _, _. split_and!; [| |reflexivity|reflexivity| | |].
  - subst names. rewrite sort_Strings_Permutation, Horder.
    apply rangeKeys_NoDup.
  - intros name. subst names. rewrite sort_Strings_Permutation, Horder.
    apply elem_of_rangeKeys.
  - by rewrite length_imap.
  - by rewrite length_fmap.
  - rewrite PluginDescriptions_range_reads. fold names. rewrite Hlen.
    rewrite StringFacts.concat_empty_sep.
    change (imap _ names) with (imap (λ i, contentsLine (0 + i)) names).
    by rewrite contents_from.
Qed.

(** X11.  The sections of the document are the sections of the plugins, each
    as it is written for a plugin alone, with one newline between two
    sections and none after the last. *)
Theorem sections_separated (w : world) (order : list string) :
  let names := sort_Strings order in
  writeAll (pluginSection (pluginSpecs w) (length names)) names
  = String.concat nl (pluginSection (pluginSpecs w) 1 0 <$> names).
Proof.
  intros names. unfold writeAll.
  by rewrite <-(sections_from (pluginSpecs w) (length names) names 0).
Qed.

(** *** Sequences of calls *)

Lemma performAll_cons c calls (w : world) :
  performAll (c :: calls) w = performAll calls (perform c w).
Proof. done. Qed.

Lemma perform_dom c (w : world) :
  dom (pluginSpecs (perform c w)) = {[callTag c]} ∪ dom (pluginSpecs w).
Proof.
  destruct c; simpl; unfold RegisterPlugin, DocumentPlugin; simpl;
    apply dom_insert_L.
Qed.

Lemma performAll_dom calls (w : world) :
  dom (pluginSpecs (performAll calls w))
  = list_to_set (callTag <$> calls) ∪ dom (pluginSpecs w).
Proof.
  revert w. induction calls as [|c calls IH]; intros w.
  - simpl. by rewrite (left_id_L ∅ (∪)).
  - rewrite performAll_cons, IH, perform_dom. simpl.
    rewrite !(assoc_L (∪)). f_equal. apply (comm_L (∪)).
Qed.

(** X8.  After any sequence of [RegisterPlugin] and [DocumentPlugin] calls,
    [GetDeprecatedPlugin] finds a name exactly when the registry had it
    before or one of the calls was made under it; no call removes an entry,
    so [PluginCount] never decreases. *)
Theorem performAll_found (calls : list call) (w : world) name :
  ((GetDeprecatedPlugin name (performAll calls w)).2 = true
   ↔ is_Some (pluginSpecs w !! name) ∨ name ∈ callTag <$> calls)
  ∧ PluginCount w ≤ PluginCount (performAll calls w).
Proof.
  split.
  - transitivity (name ∈ dom (pluginSpecs (performAll calls w))).
    + unfold GetDeprecatedPlugin. rewrite elem_of_dom.
      destruct (pluginSpecs (performAll calls w) !! name); simpl.
      * split; eauto.
      * split; [done|]. by intros [? ?].
    + rewrite performAll_dom, elem_of_union, elem_of_list_to_set, elem_of_dom.
      tauto.
  - unfold PluginCount. rewrite <-!size_dom, performAll_dom.
    apply subseteq_size, union_subseteq_r.
Qed.

Lemma index_RegisterPlugin tag cf c (w : world) name :
  index (pluginSpecs (RegisterPlugin tag cf c w)) name
  = if decide (name = tag)
    then {| constructor := fromSimpleConstructor (pluginClosure c);
            confConstructor := cf;
            confSanitiser := confSanitiser (index (pluginSpecs w) tag);
            description := description (index (pluginSpecs w) tag) |}
    else index (pluginSpecs w) name.
Proof.
  unfold index at 1. rewrite RegisterPlugin_lookup_any. by case_decide.
Qed.

Lemma index_DocumentPlugin tag d s (w : world) name :
  index (pluginSpecs (DocumentPlugin tag d s w)) name
  = if decide (name = tag)
    then {| constructor := constructor (index (pluginSpecs w) tag);
            confConstructor := confConstructor (index (pluginSpecs w) tag);
            confSanitiser := s;
            description := d |}
    else index (pluginSpecs w) name.
Proof.
  unfold index at 1. rewrite DocumentPlugin_lookup_any. by case_decide.
Qed.

(** X9.  After any sequence of calls, the entry of a name carries the
    constructor and the config factory of the last [RegisterPlugin] call
    under that name, and the description and the sanitiser of the last
    [DocumentPlugin] call under it; where there was no such call, the fields
    are those of before.  The two kinds of call do not disturb each other,
    whatever their order. *)
Theorem performAll_last_writes (calls : list call) (w : world) name :
  let old := index (pluginSpecs w) name in
  index (pluginSpecs (performAll calls w)) name
  = {| constructor :=
         match lastRegistered name calls with
         | Some (_, c) => fromSimpleConstructor (pluginClosure c)
         | None => constructor old
         end;
       confConstructor :=
         match lastRegistered name calls with
         | Some (cf, _) => cf
         | None => confConstructor old
         end;
       confSanitiser :=
         match lastDocumented name calls with
         | Some (_, s) => s
         | None => confSanitiser old
         end;
       description :=
         match lastDocumented name calls with
         | Some (d, _) => d
         | None => description old
         end |}.
Proof.
  revert w. induction calls as [|c calls IH]; intros w.
  - simpl. by destruct (index (pluginSpecs w) name).
  - rewrite performAll_cons, IH. cbv zeta.
    destruct c as [t cf c|t d s]; cbn [perform];
      rewrite ?index_RegisterPlugin, ?index_DocumentPlugin;
      cbn [lastRegistered lastDocumented];
      destruct (lastRegistered name calls) as [[cf' c']|],
        (lastDocumented name calls) as [[d' s']|];
      repeat case_decide; simplify_eq; done.
Qed.

(** X10.  [plugins.Add] is called once for each [RegisterPlugin] call, with
    its type string and ["output"], in call order; [DocumentPlugin] calls
    leave the record of [plugins] as it is. *)
Theorem performAll_interop (calls : list call) (w : world) :
  interop (performAll calls w)
  = foldl (λ i typeString, plugins_Add typeString "output" i) (interop w)
      (registeredTags calls).
Proof.
  revert w. induction calls as [|c calls IH]; intros w; [done|].
  rewrite performAll_cons, IH. by destruct c.
Qed.

End more.

(** The theorems above at a concrete registry. *)
Import Sample.

Lemma Register_commute_witness :
  pluginSpecs (reg "foo" (Some "cfg") "ctor" (reg "bar" None "c2" emptyWorld))
  = pluginSpecs (reg "bar" None "c2" (reg "foo" (Some "cfg") "ctor" emptyWorld)).
Proof.
  exact (proj1 (Register_commute (EX := sampleExternals) "bar" None "c2"
                  "foo" (Some "cfg") "ctor" emptyWorld ltac:(done))).
Defined.

Lemma DocumentPlugin_keeps_constructors_witness :
  GetDeprecatedPlugin "bar" (doc "foo" "Other." None documented)
  = GetDeprecatedPlugin "bar" documented
  ∧ (GetDeprecatedPlugin "foo" (doc "foo" "Other." None documented)).2 = true.
Proof.
  split.
  - exact (proj1 (proj2 (DocumentPlugin_keeps_constructors (FT := sampleTypes)
                           "foo" "Other." None documented "bar"))
             ltac:(done)).
  - exact (proj2 (proj2 (DocumentPlugin_keeps_constructors (FT := sampleTypes)
                           "foo" "Other." None documented "foo"))
             eq_refl).
Defined.

Lemma performAll_found_witness :
  (GetDeprecatedPlugin "zed"
     (performAll (EX := sampleExternals) sampleCalls emptyWorld)).2 = true.
Proof.
  apply (proj1 (performAll_found (EX := sampleExternals) sampleCalls emptyWorld
                  "zed")).
  right. vm_compute. do 3 apply list_elem_of_further. apply list_elem_of_here.
Defined.

Lemma PluginDescriptions_empty_witness :
  PluginDescriptions (EX := sampleExternals) emptyWorld
  = preamble +:+ "There are no plugins loaded.".
Proof.
  exact (PluginDescriptions_empty (EX := sampleExternals) emptyWorld eq_refl).
Defined.

Lemma PluginDescriptions_counts_witness :
  ∃ lines sections : list string,
    length lines = 3 ∧ length sections = 3
    ∧ PluginDescriptions_range (EX := sampleExternals) ["zed"; "foo"; "bar"]
        threePlugins
      = preamble +:+ String.concat "" lines +:+ nl
        +:+ String.concat nl sections.
Proof.
  assert (Hperm : ["zed"; "foo"; "bar"] ≡ₚ rangeKeys threePlugins).
  { vm_compute. apply perm_swap. }
  destruct (PluginDescriptions_counts (EX := sampleExternals) threePlugins
              ["zed"; "foo"; "bar"] Hperm)
    as (names & lines & sections & _ & _ & _ & _ & Hlines & Hsections & Hdoc).
  exists lines, sections. split_and!; [exact Hlines|exact Hsections|exact Hdoc].
Defined.

(** A run: registered twice, documented before being registered, and
    documented only. *)
Example sampleCalls_entries :
  pluginSpecs (performAll (EX := sampleExternals) sampleCalls emptyWorld)
  = {[ "bar" := spec (Some "c3") (Some "cfg2") None "";
       "foo" := spec (Some "ctor") (Some "cfg") None "Early words.";
       "zed" := spec None None None "A zed." ]}
  ∧ interop (performAll (EX := sampleExternals) sampleCalls emptyWorld)
    = [("bar", "output"); ("foo", "output"); ("bar", "output")].
Proof. split; vm_compute; reflexivity. Qed.

End RegistryMore.
